(** * OcrAgent: the row parser, the recognition jobs and the row table

    A shallow embedding of [src/components/OcrAgent.tsx]:
    - [parseTextToRows], with the pieces of the JavaScript string library it
      calls ([String.prototype.trim], [String.prototype.split] on a regular
      expression, [RegExp.prototype.test]);
    - the state of the [OcrAgent] component and its event handlers
      ([handleFiles] and the callbacks of the recognition tasks it starts,
      [handleAppend], [clearAll], the "Clear rows" button). *)

From Stdlib Require Import String Ascii NArith QArith_base DecimalNat.
From stdpp Require Import base option list.

Set Default Proof Using "Type".
Local Open Scope N_scope.
Local Open Scope nat_scope.

(** ** JavaScript strings

    A JavaScript string is a sequence of UTF-16 code units. *)

Module JsString.

Definition char := N.
Definition jsstring := list char.

(** A source-level string literal, as its code units (ASCII only). *)
Definition js (s : string) : jsstring :=
  List.map N_of_ascii (list_ascii_of_string s).

Definition TAB : char := 9%N.
Definition LF : char := 10%N.
Definition CR : char := 13%N.
Definition SPACE : char := 32%N.
Definition COMMA : char := 44%N.
Definition PIPE : char := 124%N.

(** ECMAScript WhiteSpace and LineTerminator code points: the characters
    removed by [trim] and matched by the class escape [\s]. *)
Definition is_space (c : char) : bool :=
  ((9 <=? c) && (c <=? 13) || (c =? 32) || (c =? 160) || (c =? 5760)
   || (8192 <=? c) && (c <=? 8202) || (c =? 8232) || (c =? 8233)
   || (c =? 8239) || (c =? 8287) || (c =? 12288) || (c =? 65279))%N.

Fixpoint trimStart (s : jsstring) : jsstring :=
  match s with
  | c :: s' => if is_space c then trimStart s' else s
  | [] => []
  end.

Definition trimEnd (s : jsstring) : jsstring := rev (trimStart (rev s)).

(** [s.trim()] *)
Definition trim (s : jsstring) : jsstring := trimEnd (trimStart s).

(** [a.join(sep)] on an array of strings. *)
Fixpoint join (sep : jsstring) (a : list jsstring) : jsstring :=
  match a with
  | [] => []
  | [x] => x
  | x :: a' => x ++ sep ++ join sep a'
  end.

(** [s.substring(p, q)] *)
Definition substring (p q : nat) (s : jsstring) : jsstring :=
  take (q - p) (drop p s).

End JsString.
Export JsString.

(** ** Regular expressions

    The part of ECMAScript's regular expressions that the component's
    literals are written in, with the backtracking semantics of the language
    specification: a matcher takes a continuation and returns the first
    success in priority order. *)

Module RegExp.

(** The capture array of a match; [None] is [undefined]. *)
Definition Captures := list (option jsstring).

(** The result of matching at a given index: the length of the match and
    its captures. *)
Definition MatchResult := (nat * Captures)%type.

(** [m S q]: the outcome of [exec] on the string [S] with [lastIndex = q],
    matching at [q] only (as [split] does). *)
Definition Matcher := jsstring -> nat -> option MatchResult.

(** Sets of characters: class escapes and bracketed classes. *)
Inductive charset : Type :=
  | CsSpace                          (* \s *)
  | CsDigit                          (* \d *)
  | CsWord                           (* \w *)
  | CsLineTerminator
  | CsRange (a b : char)
  | CsNone
  | CsUnion (c1 c2 : charset)
  | CsNot (c1 : charset).

Definition is_digit (c : char) : bool := ((48 <=? c) && (c <=? 57))%N.

Definition is_alnum (c : char) : bool :=
  (is_digit c || (65 <=? c) && (c <=? 90) || (97 <=? c) && (c <=? 122))%N.

Definition is_word (c : char) : bool := is_alnum c || (c =? 95)%N.

Definition is_line_terminator (c : char) : bool :=
  ((c =? 10) || (c =? 13) || (c =? 8232) || (c =? 8233))%N.

Fixpoint in_charset (cs : charset) (c : char) : bool :=
  match cs with
  | CsSpace => is_space c
  | CsDigit => is_digit c
  | CsWord => is_word c
  | CsLineTerminator => is_line_terminator c
  | CsRange a b => ((a <=? c) && (c <=? b))%N
  | CsNone => false
  | CsUnion c1 c2 => in_charset c1 c || in_charset c2 c
  | CsNot c1 => negb (in_charset c1 c)
  end.

Inductive regex : Type :=
  | Empty
  | Char (c : char)
  | CharSet (cs : charset)
  | Seq (r1 r2 : regex)
  | Alt (r1 r2 : regex)
  | Repeat (min : nat) (max : option nat) (greedy : bool) (r : regex)
  | Group (i : nat) (r : regex).

Definition Cont := jsstring -> Captures -> option MatchResult.

Fixpoint groups (r : regex) : list nat :=
  match r with
  | Empty | Char _ | CharSet _ => []
  | Seq r1 r2 | Alt r1 r2 => groups r1 ++ groups r2
  | Repeat _ _ _ r => groups r
  | Group i r => i :: groups r
  end.

Definition clear (gs : list nat) (caps : Captures) : Captures :=
  foldr (fun i c => <[i:=None]> c) caps gs.

(** RepeatMatcher: an iteration that matches the empty string once [min]
    is reached is refused, so [min + length s] bounds the number of
    iterations and [fuel] is never exhausted when started from
    [min + length s + 1]. *)
Fixpoint repeat_m (m : Cont -> Cont) (gs : list nat) (greedy : bool)
    (fuel min : nat) (max : option nat) (k : Cont)
    (s : jsstring) (caps : Captures) : option MatchResult :=
  match fuel with
  | 0 => None
  | S fuel' =>
      if bool_decide (max = Some 0) then k s caps
      else
        let d : Cont := fun s' caps' =>
          if (min =? 0) && (length s' =? length s) then None
          else repeat_m m gs greedy fuel' (pred min) (pred <$> max) k s' caps' in
        let caps0 := clear gs caps in
        if 0 <? min then m d s caps0
        else if greedy then
          match m d s caps0 with Some z => Some z | None => k s caps end
        else
          match k s caps with Some z => Some z | None => m d s caps0 end
  end.

Fixpoint rx_m (r : regex) (k : Cont) (s : jsstring) (caps : Captures)
    : option MatchResult :=
  match r with
  | Empty => k s caps
  | Char c =>
      match s with
      | x :: s' => if (x =? c)%N then k s' caps else None
      | [] => None
      end
  | CharSet cs =>
      match s with
      | x :: s' => if in_charset cs x then k s' caps else None
      | [] => None
      end
  | Seq r1 r2 => rx_m r1 (rx_m r2 k) s caps
  | Alt r1 r2 =>
      match rx_m r1 k s caps with
      | Some z => Some z
      | None => rx_m r2 k s caps
      end
  | Repeat min max greedy r1 =>
      repeat_m (rx_m r1) (groups r1) greedy (min + length s + 1) min max k s caps
  | Group i r1 =>
      rx_m r1 (fun s' caps' =>
                 k s' (<[i:=Some (take (length s - length s') s)]> caps')) s caps
  end.

(** Number of capturing groups of a pattern whose groups are numbered
    [0 .. n-1]. *)
Definition ngroups (r : regex) : nat := length (groups r).

(** The matcher of a compiled pattern. *)
Definition rx_exec (r : regex) : Matcher := fun S q =>
  if q <=? length S then
    let s := drop q S in
    rx_m r (fun s' caps => Some (length s - length s', caps)) s
         (replicate (ngroups r) None)
  else None.

(** [re.test(S)] for a pattern without the [g] flag: is there a match at
    some index of [S]? *)
Definition test (m : Matcher) (S : jsstring) : bool :=
  existsb (fun q => bool_decide (is_Some (m S q))) (seq 0 (length S + 1)).

(** [S.split(re)] (RegExp.prototype[Symbol.split], no limit): [p] is the
    start of the piece being collected and [q] the index where a match is
    attempted. Every step either advances [q] or moves [p] up to [q], so
    [2 * length S + 1] steps are enough. *)
Fixpoint split_loop (m : Matcher) (S : jsstring) (fuel p q : nat)
    : list (option jsstring) :=
  match fuel with
  | 0 => [Some (substring p (length S) S)]
  | S fuel' =>
      if length S <=? q then [Some (substring p (length S) S)]
      else
        match m S q with
        | None => split_loop m S fuel' p (q + 1)
        | Some (len, caps) =>
            let e := (q + len) `min` length S in
            if e =? p then split_loop m S fuel' p (q + 1)
            else Some (substring p q S) :: caps ++ split_loop m S fuel' e e
        end
  end.

Definition split (m : Matcher) (S : jsstring) : list (option jsstring) :=
  match S with
  | [] => match m [] 0 with Some _ => [] | None => [Some []] end
  | _ => split_loop m S (2 * length S + 1) 0 0
  end.

(** The host's [RegExp] constructor and the objects it builds:
    [RegExp_new p] is [new RegExp(p, "g")], [None] when it throws a
    SyntaxError. *)
Class RegExpEngine := {
  RegExpObj : Type;
  RegExp_new : jsstring -> option RegExpObj;
  RegExp_exec : RegExpObj -> Matcher
}.

End RegExp.
Export RegExp.

(** ** A reference engine

    A pattern parser for a fragment of the ECMAScript pattern syntax
    (no [u] flag): literal characters, [.], the class escapes [\s \S \d \D
    \w \W], the control escapes [\t \n \r \v \f], escaped punctuation,
    classes [[...]] and [[^...]] of characters, ranges and class escapes,
    capturing and non-capturing groups, alternation, and the quantifiers
    [* + ? {n} {n,} {n,m}], greedy or lazy. Patterns using anything else
    (assertions, back-references, named groups, [\x] and [\u] escapes) are
    outside the fragment and are rejected by this parser, though the host
    compiles them: it stands for the host only on patterns of the
    fragment. The properties below are stated for any engine; this one
    serves to run them on examples. *)

Module PatternSyntax.

(** The set denoted by a class escape, if [c] is the letter of one. *)
Definition class_escape (c : char) : option charset :=
  if (c =? 115)%N then Some CsSpace
  else if (c =? 83)%N then Some (CsNot CsSpace)
  else if (c =? 100)%N then Some CsDigit
  else if (c =? 68)%N then Some (CsNot CsDigit)
  else if (c =? 119)%N then Some CsWord
  else if (c =? 87)%N then Some (CsNot CsWord)
  else None.

(** The character denoted by a control escape or an escaped punctuation
    character. *)
Definition char_escape (c : char) : option char :=
  if (c =? 116)%N then Some 9%N
  else if (c =? 110)%N then Some 10%N
  else if (c =? 118)%N then Some 11%N
  else if (c =? 102)%N then Some 12%N
  else if (c =? 114)%N then Some 13%N
  else if is_alnum c || (c =? 95)%N then None
  else Some c.

Definition escape (c : char) : option regex :=
  match class_escape c with
  | Some cs => Some (CharSet cs)
  | None => Char <$> char_escape c
  end.

Fixpoint p_digits (s : jsstring) (acc : option nat) : option nat * jsstring :=
  match s with
  | c :: s' =>
      if is_digit c
      then p_digits s' (Some (10 * default 0 acc + N.to_nat (c - 48)))
      else (acc, s)
  | [] => (acc, s)
  end.

(** The items of a class up to its closing bracket. *)
Fixpoint p_class (s : jsstring) (acc : charset)
    : option (charset * jsstring) :=
  match s with
  | [] => None
  | 93%N :: s' => Some (acc, s')
  | 92%N :: c :: s' =>
      match class_escape c with
      | Some cs => p_class s' (CsUnion acc cs)
      | None =>
          match char_escape c with
          | Some d => p_class s' (CsUnion acc (CsRange d d))
          | None => None
          end
      end
  | 92%N :: [] => None
  | a :: 45%N :: 93%N :: s' =>
      Some (CsUnion (CsUnion acc (CsRange a a)) (CsRange 45%N 45%N), s')
  | _ :: 45%N :: 92%N :: _ => None
  | a :: 45%N :: b :: s' =>
      if (a <=? b)%N then p_class s' (CsUnion acc (CsRange a b)) else None
  | a :: s' => p_class s' (CsUnion acc (CsRange a a))
  end.

(** An optional quantifier after the atom [a]. *)
Definition p_quant (a : regex) (s : jsstring) : option (regex * jsstring) :=
  let lazy (mn : nat) (mx : option nat) (s1 : jsstring) :=
    match s1 with
    | 63%N :: s2 => Some (Repeat mn mx false a, s2)
    | _ => Some (Repeat mn mx true a, s1)
    end in
  match s with
  | 42%N :: s1 => lazy 0 None s1
  | 43%N :: s1 => lazy 1 None s1
  | 63%N :: s1 => lazy 0 (Some 1) s1
  | 123%N :: s1 =>
      match p_digits s1 None with
      | (Some mn, 125%N :: s2) => lazy mn (Some mn) s2
      | (Some mn, 44%N :: s2) =>
          match p_digits s2 None with
          | (None, 125%N :: s3) => lazy mn None s3
          | (Some mx, 125%N :: s3) =>
              if mn <=? mx then lazy mn (Some mx) s3 else None
          | _ => None
          end
      | _ => None
      end
  | _ => Some (a, s)
  end.

(** Disjunction, Alternative, Term and Atom; [g] is the number of the next
    capturing group. Results carry the unread input. *)
Fixpoint p_disj (fuel : nat) (s : jsstring) (g : nat)
    : option (regex * jsstring * nat) :=
  match fuel with
  | 0 => None
  | S n =>
      '(r1, s1, g1) ← p_alt n s g;
      match s1 with
      | 124%N :: s2 =>
          '(r2, s3, g2) ← p_disj n s2 g1; Some (Alt r1 r2, s3, g2)
      | _ => Some (r1, s1, g1)
      end
  end
with p_alt (fuel : nat) (s : jsstring) (g : nat)
    : option (regex * jsstring * nat) :=
  match fuel with
  | 0 => None
  | S n =>
      match s with
      | [] | 124%N :: _ | 41%N :: _ => Some (Empty, s, g)
      | _ =>
          '(r1, s1, g1) ← p_term n s g;
          '(r2, s2, g2) ← p_alt n s1 g1;
          Some (match r2 with Empty => r1 | _ => Seq r1 r2 end, s2, g2)
      end
  end
with p_term (fuel : nat) (s : jsstring) (g : nat)
    : option (regex * jsstring * nat) :=
  match fuel with
  | 0 => None
  | S n =>
      '(a, s1, g1) ← p_atom n s g;
      '(r, s2) ← p_quant a s1;
      Some (r, s2, g1)
  end
with p_atom (fuel : nat) (s : jsstring) (g : nat)
    : option (regex * jsstring * nat) :=
  match fuel with
  | 0 => None
  | S n =>
      match s with
      | 40%N :: 63%N :: 58%N :: s1 =>
          '(r, s2, g1) ← p_disj n s1 g;
          match s2 with
          | 41%N :: s3 => Some (r, s3, g1)
          | _ => None
          end
      | 40%N :: 63%N :: _ => None
      | 40%N :: s1 =>
          '(r, s2, g1) ← p_disj n s1 (g + 1);
          match s2 with
          | 41%N :: s3 => Some (Group g r, s3, g1)
          | _ => None
          end
      | 46%N :: s1 => Some (CharSet (CsNot CsLineTerminator), s1, g)
      | 92%N :: c :: s1 => r ← escape c; Some (r, s1, g)
      | 91%N :: 94%N :: s1 =>
          '(cs, s2) ← p_class s1 CsNone; Some (CharSet (CsNot cs), s2, g)
      | 91%N :: s1 =>
          '(cs, s2) ← p_class s1 CsNone; Some (CharSet cs, s2, g)
      | c :: s1 =>
          if bool_decide (c ∈ [36; 41; 42; 43; 63; 92; 94; 123; 124; 125]%N)
          then None
          else Some (Char c, s1, g)
      | [] => None
      end
  end.

Definition parse_pattern (p : jsstring) : option regex :=
  match p_disj (4 * length p + 8) p 0 with
  | Some (r, [], _) => Some r
  | _ => None
  end.

Definition ReferenceEngine : RegExpEngine :=
  {| RegExpObj := regex; RegExp_new := parse_pattern; RegExp_exec := rx_exec |}.

End PatternSyntax.
Export PatternSyntax.

(** ** The row parser: [parseTextToRows] *)

Module Parser.

Definition Row := list jsstring.

Inductive Delimiter := auto | comma | tab | pipe | spaces | custom.

Record Options := {
  delimiter : Delimiter;
  customPattern : option jsstring     (* [None]: the property is absent *)
}.

(** The regular-expression literals of the function. *)
Definition ws_star : regex := Repeat 0 None true (CharSet CsSpace).

(** [/\r?\n/] *)
Definition re_newline : regex := Seq (Repeat 0 (Some 1) true (Char CR)) (Char LF).
(** [/\|/], [/,/], [/\t/] *)
Definition re_has_pipe : regex := Char PIPE.
Definition re_has_comma : regex := Char COMMA.
Definition re_tab : regex := Char TAB.
(** [/\s*\|\s*/g] *)
Definition re_pipe : regex := Seq ws_star (Seq (Char PIPE) ws_star).
(** [/\s*,\s*/g] *)
Definition re_comma : regex := Seq ws_star (Seq (Char COMMA) ws_star).
(** [/\s{2,}/g] *)
Definition re_spaces : regex := Repeat 2 None true (CharSet CsSpace).

(** A throwing computation: [None] stands for an exception reaching the
    caller. The only one possible here is the TypeError of calling [trim]
    on [undefined], an unmatched capture that [split] puts in its result. *)
Definition Completion (A : Type) := option A.

(** [c.trim()] on an element of the array returned by [split]. *)
Definition callTrim (c : option jsstring) : Completion jsstring :=
  match c with
  | Some s => Some (trim s)
  | None => None
  end.

Definition Splitter := jsstring -> list (option jsstring).

(** [const lines = text.split(/\r?\n/).map(l => l.trim()).filter(l => l.length > 0)] *)
Definition lines_of (text : jsstring) : Completion (list jsstring) :=
  l ← mapM callTrim (split (rx_exec re_newline) text);
  Some (List.filter (fun l : jsstring => 0 <? length l) l).

Definition autoGuess (lines : list jsstring) : Splitter :=
  let sample := join [LF] (take 10 lines) in
  if test (rx_exec re_has_pipe) sample then split (rx_exec re_pipe)
  else if test (rx_exec re_has_comma) sample then split (rx_exec re_comma)
  else if test (rx_exec re_tab) sample then split (rx_exec re_tab)
  else split (rx_exec re_spaces).

Section WithEngine.
Context `{RegExpEngine}.

Definition splitter_of (opts : Options) (lines : list jsstring) : Splitter :=
  match delimiter opts with
  | comma => split (rx_exec re_comma)
  | tab => split (rx_exec re_tab)
  | pipe => split (rx_exec re_pipe)
  | spaces => split (rx_exec re_spaces)
  | custom =>
      match RegExp_new (default (js "\s+") (customPattern opts)) with
      | Some re => split (RegExp_exec re)
      | None => split (rx_exec re_spaces)
      end
  | auto => autoGuess lines
  end.

Definition parseTextToRows (text : jsstring) (opts : Options)
    : Completion (list Row) :=
  lines ← lines_of text;
  let splitter := splitter_of opts lines in
  mapM (fun l => mapM callTrim (splitter l)) lines.

End WithEngine.

End Parser.
Export Parser.

(** ** The component: recognition jobs and the row table *)

Module Agent.

Inductive Status := Idle | Recognizing | Done | Error.

#[global] Instance Status_eq_dec : EqDecision Status.
Proof. solve_decision. Defined.

(** [ExtractResult], the record of one recognition job. *)
Record ExtractResult := {
  fileName : jsstring;
  text : jsstring;
  progress : Q;
  status : Status;
  error : option jsstring
}.

Record File := { name : jsstring }.

(** The message Tesseract passes to the [logger] callback; [m_progress]
    is [None] when the property is not a number. *)
Record LoggerMessage := {
  m_status : jsstring;
  m_progress : option Q
}.

(** Job records are JavaScript objects: the arrays held by the [extracts]
    state share them ([[...prev]] copies references), and the callbacks
    write to them in place. A record is identified by its address in the
    store of allocated objects. *)
Abbreviation loc := nat (only parsing).

(** One call of the [async (file, index) => ...] callback of [handleFiles]:
    the [localIndex] it computed, whether it has run to its end, and (for
    the specification only) the record that [handleFiles] created for its
    file, [initial[index]]. *)
Record Task := {
  localIndex : nat;
  job : loc;
  settled : bool
}.

Record State := {
  heap : list ExtractResult;
  tasks : list Task;
  (* the component's [useState] cells *)
  extracts : list loc;
  columnsInput : jsstring;
  delimiter : Delimiter;
  customPattern : jsstring;
  rows : list Row;
  isAppending : bool
}.

Definition initial_state : State := {|
  heap := []; tasks := [];
  extracts := [];
  columnsInput := js "Item, Quantity, Price";
  delimiter := auto;
  customPattern := js "";
  rows := [];
  isAppending := false
|}.

Definition set_heap (h : list ExtractResult) (st : State) : State :=
  {| heap := h; tasks := tasks st; extracts := extracts st;
     columnsInput := columnsInput st; delimiter := delimiter st;
     customPattern := customPattern st; rows := rows st;
     isAppending := isAppending st |}.

Definition set_tasks (ts : list Task) (st : State) : State :=
  {| heap := heap st; tasks := ts; extracts := extracts st;
     columnsInput := columnsInput st; delimiter := delimiter st;
     customPattern := customPattern st; rows := rows st;
     isAppending := isAppending st |}.

Definition setExtracts (f : list loc -> list loc) (st : State) : State :=
  {| heap := heap st; tasks := tasks st; extracts := f (extracts st);
     columnsInput := columnsInput st; delimiter := delimiter st;
     customPattern := customPattern st; rows := rows st;
     isAppending := isAppending st |}.

Definition setColumnsInput (v : jsstring) (st : State) : State :=
  {| heap := heap st; tasks := tasks st; extracts := extracts st;
     columnsInput := v; delimiter := delimiter st;
     customPattern := customPattern st; rows := rows st;
     isAppending := isAppending st |}.

Definition setDelimiter (d : Delimiter) (st : State) : State :=
  {| heap := heap st; tasks := tasks st; extracts := extracts st;
     columnsInput := columnsInput st; delimiter := d;
     customPattern := customPattern st; rows := rows st;
     isAppending := isAppending st |}.

Definition setCustomPattern (v : jsstring) (st : State) : State :=
  {| heap := heap st; tasks := tasks st; extracts := extracts st;
     columnsInput := columnsInput st; delimiter := delimiter st;
     customPattern := v; rows := rows st;
     isAppending := isAppending st |}.

Definition setRows (f : list Row -> list Row) (st : State) : State :=
  {| heap := heap st; tasks := tasks st; extracts := extracts st;
     columnsInput := columnsInput st; delimiter := delimiter st;
     customPattern := customPattern st; rows := f (rows st);
     isAppending := isAppending st |}.

Definition setIsAppending (b : bool) (st : State) : State :=
  {| heap := heap st; tasks := tasks st; extracts := extracts st;
     columnsInput := columnsInput st; delimiter := delimiter st;
     customPattern := customPattern st; rows := rows st;
     isAppending := b |}.

(** [s.split(",")]: a one-character string separator. *)
Fixpoint split_on (sep : char) (cur s : jsstring) : list jsstring :=
  match s with
  | [] => [cur]
  | c :: s' =>
      if (c =? sep)%N then cur :: split_on sep [] s'
      else split_on sep (cur ++ [c]) s'
  end.

(** [const columns = useMemo(...)] *)
Definition columns (st : State) : list jsstring :=
  List.filter (fun c : jsstring => 0 <? length c)
              (trim <$> split_on COMMA [] (columnsInput st)).

(** The records of the [extracts] array, in order. *)
Definition records (st : State) : list ExtractResult :=
  omap (fun l => heap st !! l) (extracts st).

(** The body shared by the three [setExtracts] updaters of a task:
    [const next = [...prev]; if (next[localIndex]) { ... next[localIndex]
    mutated by upd ... } return next]. *)
Definition update_at (i : nat) (upd : ExtractResult -> ExtractResult)
    (st : State) : State :=
  match extracts st !! i with
  | Some l => setExtracts (fun prev => prev) (set_heap (alter upd l (heap st)) st)
  | None => setExtracts (fun prev => prev) st
  end.

Definition set_progress (p : Q) (r : ExtractResult) : ExtractResult :=
  {| fileName := fileName r; text := text r; progress := p;
     status := status r; error := error r |}.

Definition set_done (t : jsstring) (r : ExtractResult) : ExtractResult :=
  {| fileName := fileName r; text := t; progress := 1%Q;
     status := Done; error := error r |}.

Definition set_error (msg : jsstring) (r : ExtractResult) : ExtractResult :=
  {| fileName := fileName r; text := text r; progress := progress r;
     status := Error; error := Some msg |}.

(** The [logger] callback of a task. *)
Definition logger (localIndex : nat) (m : LoggerMessage) (st : State) : State :=
  match m_progress m with
  | Some p =>
      if bool_decide (m_status m = js "recognizing text")
      then update_at localIndex (set_progress p) st
      else st
  | None => st
  end.

(** The continuation after [await Tesseract.recognize(...)]; [data_text] is
    [data.text], [None] when it is null or undefined. *)
Definition on_resolved (localIndex : nat) (data_text : option jsstring)
    (st : State) : State :=
  update_at localIndex (set_done (default (js "") data_text)) st.

(** The [catch (err)] block; [message] is [(err as Error)?.message]. *)
Definition on_rejected (localIndex : nat) (message : option jsstring)
    (st : State) : State :=
  update_at localIndex (set_error (default (js "OCR failed") message)) st.

(** [handleFiles(files)] as created by a render in which [extracts.length]
    was [extracts_length]: the new records are allocated and appended, and
    one task per file is started. *)
Definition handleFiles (extracts_length : nat) (files : option (list File))
    (st : State) : State :=
  match files with
  | None | Some [] => st
  | Some fs =>
      let initial :=
        (fun f => {| fileName := name f; text := js ""; progress := 0%Q;
                     status := Recognizing; error := None |}) <$> fs in
      let base := length (heap st) in
      let started :=
        imap (fun index _ =>
                {| localIndex := extracts_length + index;
                   job := base + index; settled := false |}) fs in
      set_tasks (tasks st ++ started)
        (setExtracts (fun prev => prev ++ seq base (length fs))
           (set_heap (heap st ++ initial) st))
  end.

(** [clearAll] *)
Definition clearAll (st : State) : State :=
  setRows (fun _ => []) (setExtracts (fun _ => []) st).

(** The "Clear rows" button: [onClick={() => setRows([])}]. *)
Definition clearRows (st : State) : State := setRows (fun _ => []) st.

Section WithEngine.
Context `{RegExpEngine}.

(** [handleAppend]. When [parseTextToRows] throws, the [finally] block
    still runs and [setRows] is not reached. *)
Definition parsedBlocks (st : State) : Completion (list (list Row)) :=
  mapM (fun x => parseTextToRows (text x)
                   {| Parser.delimiter := delimiter st;
                      Parser.customPattern := Some (customPattern st) |})
       (List.filter (fun x => bool_decide (status x = Done)
                              && (0 <? length (trim (text x))))
                    (records st)).

Definition handleAppend (st : State) : State :=
  let st1 := setIsAppending true st in
  match parsedBlocks st with
  | Some blocks =>
      let newRows := concat blocks in
      setIsAppending false (setRows (fun prev => prev ++ newRows) st1)
  | None => setIsAppending false st1
  end.

(** What can happen to the component: the user's actions and the
    notifications of the recognition tasks, a task being named by its rank
    among the tasks started so far. *)
Inductive Event :=
  | FilesGiven (files : option (list File))
  | LoggerCalled (t : nat) (m : LoggerMessage)
  | Resolved (t : nat) (data_text : option jsstring)
  | Rejected (t : nat) (message : option jsstring)
  | AppendClicked
  | ClearClicked
  | ClearRowsClicked
  | ColumnsTyped (v : jsstring)
  | DelimiterSelected (d : Delimiter)
  | PatternTyped (v : jsstring).

Definition settle (t : nat) (st : State) : State :=
  set_tasks (alter (fun tk => {| localIndex := localIndex tk; job := job tk;
                                 settled := true |}) t (tasks st)) st.

(** A task that is still running, if [t] names one. *)
Definition running (t : nat) (st : State) : option Task :=
  tk ← tasks st !! t;
  if settled tk then None else Some tk.

(** One event. React re-renders the component after each handler, so the
    [handleFiles] that a user action reaches closes over the length of the
    current [extracts]. A task notifies only while it runs, and it ends
    with exactly one of [Resolved] and [Rejected]; [None] is returned for a
    notification that cannot occur. *)
Definition step (ev : Event) (st : State) : option State :=
  match ev with
  | FilesGiven files => Some (handleFiles (length (extracts st)) files st)
  | LoggerCalled t m =>
      tk ← running t st; Some (logger (localIndex tk) m st)
  | Resolved t data_text =>
      tk ← running t st;
      Some (settle t (on_resolved (localIndex tk) data_text st))
  | Rejected t message =>
      tk ← running t st;
      Some (settle t (on_rejected (localIndex tk) message st))
  | AppendClicked => Some (handleAppend st)
  | ClearClicked => Some (clearAll st)
  | ClearRowsClicked => Some (clearRows st)
  | ColumnsTyped v => Some (setColumnsInput v st)
  | DelimiterSelected d => Some (setDelimiter d st)
  | PatternTyped v => Some (setCustomPattern v st)
  end.

Fixpoint run (evs : list Event) (st : State) : option State :=
  match evs with
  | [] => Some st
  | ev :: evs' => st' ← step ev st; run evs' st'
  end.

End WithEngine.

(** The task an event comes from, if it is a task's notification. *)
Definition task_of (ev : Event) : option nat :=
  match ev with
  | LoggerCalled t _ | Resolved t _ | Rejected t _ => Some t
  | _ => None
  end.

Definition is_clear (ev : Event) : bool :=
  match ev with
  | ClearClicked => true
  | _ => false
  end.

Definition terminal (s : Status) : bool :=
  match s with
  | Done | Error => true
  | _ => false
  end.

End Agent.

(** ** Reading the text line by line, stated without regular expressions *)

Module LineSpec.

(** The pieces of [s] between line endings, [cur] being the piece read so
    far. A line ends at LF or at CR LF; with [cr_alone] it also ends at a
    CR that no LF follows. *)
Fixpoint split_lines (cr_alone : bool) (cur s : jsstring) : list jsstring :=
  match s with
  | [] => [cur]
  | c :: s' =>
      if (c =? LF)%N then cur :: split_lines cr_alone [] s'
      else if (c =? CR)%N then
        match s' with
        | d :: s'' =>
            if (d =? LF)%N then cur :: split_lines cr_alone [] s''
            else if cr_alone then cur :: split_lines cr_alone [] s'
            else split_lines cr_alone (cur ++ [c]) s'
        | [] => if cr_alone then [cur; []] else [cur ++ [c]]
        end
      else split_lines cr_alone (cur ++ [c]) s'
  end.

(** Step 1 in the words of the specification: split into lines, trim each
    line, drop the lines that are then empty, keep the order. *)
Definition retained_lines (cr_alone : bool) (text : jsstring) : list jsstring :=
  List.filter (fun l : jsstring => 0 <? length l)
              (trim <$> split_lines cr_alone [] text).

End LineSpec.
Export LineSpec.

Import Agent.

(** ** Inputs used in the examples *)

Module Scenarios.

Definition file (n : string) : File := {| name := js n |}.

Definition recognizing_text (p : Q) : LoggerMessage :=
  {| m_status := js "recognizing text"; m_progress := Some p |}.

(** One file is submitted, everything is cleared while its task runs, and
    another file is submitted. *)
Definition clear_then_resubmit : list Event :=
  [FilesGiven (Some [file "a.png"]); ClearClicked;
   FilesGiven (Some [file "b.png"])].

(** Two batches, the second submitted while the tasks of the first run. *)
Definition overlapping_batches : list Event :=
  [FilesGiven (Some [file "a.png"; file "b.png"]);
   LoggerCalled 0 (recognizing_text (1 # 10));
   FilesGiven (Some [file "c.png"]);
   Resolved 1 (Some (js "b"));
   LoggerCalled 0 (recognizing_text (4 # 10))].

(** Two files, the first fails and the second is read as two lines. *)
Definition one_failure_one_success : list Event :=
  [FilesGiven (Some [file "a.png"; file "b.png"]);
   LoggerCalled 0 (recognizing_text (3 # 10));
   Rejected 0 (Some (js "bad image"));
   Resolved 1 (Some (js "a,b" ++ [LF] ++ js "c,d"))].

Definition options (d : Delimiter) (p : option jsstring) : Options :=
  {| Parser.delimiter := d; Parser.customPattern := p |}.

End Scenarios.
Export Scenarios.

(** ** What the component shows and exports *)

Module View.

(** The decimal digits of a number, as [`${n}`] prints a non-negative
    integer. *)
Fixpoint uint_chars (d : Decimal.uint) : jsstring :=
  match d with
  | Decimal.Nil => []
  | Decimal.D0 d' => 48%N :: uint_chars d'
  | Decimal.D1 d' => 49%N :: uint_chars d'
  | Decimal.D2 d' => 50%N :: uint_chars d'
  | Decimal.D3 d' => 51%N :: uint_chars d'
  | Decimal.D4 d' => 52%N :: uint_chars d'
  | Decimal.D5 d' => 53%N :: uint_chars d'
  | Decimal.D6 d' => 54%N :: uint_chars d'
  | Decimal.D7 d' => 55%N :: uint_chars d'
  | Decimal.D8 d' => 56%N :: uint_chars d'
  | Decimal.D9 d' => 57%N :: uint_chars d'
  end.

Definition decimal (n : nat) : jsstring := uint_chars (Nat.to_uint n).

(** [`col_${i + 1}`] *)
Definition col_label (i : nat) : jsstring := js "col_" ++ decimal (i + 1).

(** [Math.max(columns.length, ...rs.map((r) => r.length), 0)] *)
Definition max_width (cols : list jsstring) (rs : list Row) : nat :=
  max_list (length cols :: (length <$> rs) ++ [0]).

Definition tableHasColumns (st : State) : bool := 0 <? length (columns st).

Definition maxCols (st : State) : nat := max_width (columns st) (rows st).

(** The header passed to [downloadAsCsv] by [exportCsv]. *)
Definition export_header (st : State) : list jsstring :=
  if 0 <? length (columns st) then columns st
  else col_label <$> seq 0 (maxCols st).

(** The arguments of the call [downloadAsCsv([header, ...rows],
    "handwrite_rows.csv")] made by [exportCsv]. *)
Definition exportCsv (st : State) : list (list jsstring) * jsstring :=
  (export_header st :: rows st, js "handwrite_rows.csv").

(** The texts of the header cells and of the body cells of the table of
    appended rows, as the component renders them. With no rows the body
    is a single placeholder message and has no data cell. *)
Definition table_head (st : State) : list jsstring :=
  (fun i => if tableHasColumns st
            then default (col_label i) (columns st !! i)
            else col_label i) <$> seq 0 (maxCols st).

Definition table_body (st : State) : list (list jsstring) :=
  (fun r : Row => (fun ci => default (js "") (r !! ci)) <$> seq 0 (maxCols st))
    <$> rows st.

(** The cells of the preview table, rendered from [samplePreview]. *)
Definition preview_head (st : State) (preview : list Row) : list jsstring :=
  (fun i => default (col_label i) (columns st !! i))
    <$> seq 0 (max_width (columns st) preview).

Definition preview_body (st : State) (preview : list Row)
    : list (list jsstring) :=
  (fun r : Row =>
     (fun ci => default (js "") (r !! ci))
       <$> seq 0 (length (columns st) `max` length r)) <$> preview.

Section WithEngine.
Context `{RegExpEngine}.

(** [samplePreview]: the first ten rows parsed from the text of the first
    done job. *)
Definition samplePreview (st : State) : Completion (list Row) :=
  let text :=
    default (js "")
      (text <$> List.find (fun x => bool_decide (status x = Done)) (records st)) in
  if bool_decide (text = []) then Some []
  else take 10 <$> parseTextToRows text
                     {| Parser.delimiter := delimiter st;
                        Parser.customPattern := Some (customPattern st) |}.

End WithEngine.

End View.
Export View.

(** ** Notions used to state the properties *)

(** The character a one-character policy splits at. *)
Definition delimiter_char (d : Delimiter) : option char :=
  match d with
  | comma => Some COMMA
  | tab => Some TAB
  | pipe => Some PIPE
  | _ => None
  end.

(** A string that neither starts nor ends with white space. *)
Definition trimmed (s : jsstring) : Prop :=
  (forall c, head s = Some c -> is_space c = false)
  /\ (forall c, last s = Some c -> is_space c = false).

(** The file names submitted since the last clear, in order, [acc] being
    those seen before [evs]. *)
Fixpoint shown (evs : list Event) (acc : list jsstring) : list jsstring :=
  match evs with
  | [] => acc
  | FilesGiven files :: evs' => shown evs' (acc ++ (name <$> default [] files))
  | ClearClicked :: evs' => shown evs' []
  | _ :: evs' => shown evs' acc
  end.

Definition is_submission (ev : Event) : bool :=
  match ev with
  | FilesGiven _ => true
  | _ => false
  end.

(** Every record allocated is listed (nothing was cleared). *)
Definition full_list (st : State) : Prop :=
  length (extracts st) = length (heap st).

(** The array lists the records allocated last, each once. *)
Definition extracts_window (st : State) : Prop :=
  length (extracts st) <= length (heap st)
  /\ extracts st
     = seq (length (heap st) - length (extracts st)) (length (extracts st)).

(** The record of a running task has not been written to, except for its
    progress. *)
Definition running_fresh (st : State) : Prop :=
  forall t tk, running t st = Some tk ->
    exists r, heap st !! job tk = Some r
      /\ status r = Recognizing /\ text r = [] /\ error r = None.

(** ** Invariants of the component *)

(** The index a task computed still designates the record created for its
    file. *)
Definition own_index (st : State) : Prop :=
  forall t tk, tasks st !! t = Some tk ->
    extracts st !! localIndex tk = Some (job tk).

(** Records and tasks are created together, one task per record: the
    record of the [t]-th task is the [t]-th record allocated. *)
Definition jobs_allocated (st : State) : Prop :=
  length (heap st) = length (tasks st)
  /\ forall t tk, tasks st !! t = Some tk -> job tk = t.

(** The record of a task that is still running is in the [recognizing]
    status. *)
Definition running_recognizing (st : State) : Prop :=
  forall t tk, running t st = Some tk ->
    exists r, heap st !! job tk = Some r /\ status r = Recognizing.

(** * Properties *)

(** ** Strings *)

Section Strings.

Lemma substring_snoc (S : jsstring) p q c :
  p <= q -> S !! q = Some c ->
  substring p (q + 1) S = substring p q S ++ [c].
Proof.
  intros Hpq Hc. unfold substring.
  replace (q + 1 - p) with (Datatypes.S (q - p)) by lia.
  apply take_S_r. rewrite lookup_drop. by replace (p + (q - p)) with q by lia.
Qed.

Lemma substring_empty (S : jsstring) p : substring p p S = [].
Proof. unfold substring. by rewrite Nat.sub_diag. Qed.

Lemma substring_to_end (S : jsstring) p :
  substring p (length S) S = drop p S.
Proof.
  unfold substring. apply take_ge. rewrite length_drop. lia.
Qed.

Lemma trimStart_spaces (s : jsstring) :
  Forall (fun c => is_space c = true) s -> trimStart s = [].
Proof.
  induction 1 as [|c s Hc _ IH]; simpl; [done|]. by rewrite Hc.
Qed.

Lemma trim_spaces (s : jsstring) :
  Forall (fun c => is_space c = true) s -> trim s = [].
Proof.
  intros Hs. unfold trim, trimEnd. by rewrite (trimStart_spaces s Hs).
Qed.

End Strings.

(** ** The step bounds of the matcher and of [split] *)

Section Fuel.

(** Two continuations that agree on the strings of length at most [n]. *)
#[local] Abbreviation agree n k k' :=
  (forall (s' : jsstring) (caps' : Captures), length s' <= n -> k s' caps' = k' s' caps').

Lemma repeat_m_local (m : Cont -> Cont) gs greedy :
  (forall k k' s caps, agree (length s) k k' -> m k s caps = m k' s caps) ->
  forall fuel min max k k' s caps,
    agree (length s) k k' ->
    repeat_m m gs greedy fuel min max k s caps
    = repeat_m m gs greedy fuel min max k' s caps.
Proof.
  intros Hm. induction fuel as [|fuel IH]; intros min max k k' s caps Hk; [done|].
  cbn [repeat_m]. rewrite (Hk s caps (le_n _)).
  set (d := fun (s' : jsstring) (caps' : Captures) => _).
  set (d' := fun (s' : jsstring) (caps' : Captures) => _).
  assert (m d s (clear gs caps) = m d' s (clear gs caps)) as ->; [|done].
  apply Hm. intros s' caps' Hs'. unfold d, d'.
  destruct (_ && _); [done|]. apply IH.
  intros s'' caps'' Hs''. apply Hk. lia.
Qed.

(** A matcher calls its continuation on suffixes of its input only, so
    only the values of the continuation on strings no longer than the input
    matter. *)
Lemma rx_m_local r : forall k k' s caps,
  agree (length s) k k' -> rx_m r k s caps = rx_m r k' s caps.
Proof.
  induction r as [|c|cs|r1 IH1 r2 IH2|r1 IH1 r2 IH2|min max greedy r IH|i r IH];
    intros k k' s caps Hk; cbn [rx_m].
  - by apply Hk.
  - destruct s as [|x s]; [done|]. destruct (x =? c)%N; [|done].
    apply Hk. simpl. lia.
  - destruct s as [|x s]; [done|]. destruct (in_charset cs x); [|done].
    apply Hk. simpl. lia.
  - apply IH1. intros s' caps' Hs'. apply IH2.
    intros s'' caps'' Hs''. apply Hk. lia.
  - by rewrite (IH1 k k'), (IH2 k k').
  - by apply repeat_m_local.
  - apply IH. intros s' caps' Hs'. by apply Hk.
Qed.

(** [min + length s + 1] steps are enough for RepeatMatcher: more fuel gives
    the same result. *)
Lemma repeat_m_fuel (m : Cont -> Cont) gs greedy :
  (forall k k' s caps, agree (length s) k k' -> m k s caps = m k' s caps) ->
  forall fuel fuel' min max k s caps,
    min + length s < fuel -> min + length s < fuel' ->
    repeat_m m gs greedy fuel min max k s caps
    = repeat_m m gs greedy fuel' min max k s caps.
Proof.
  intros Hm. induction fuel as [|fuel IH];
    intros fuel' min max k s caps Hf Hf'; [lia|].
  destruct fuel' as [|fuel']; [lia|]. cbn [repeat_m].
  set (d := fun (s' : jsstring) (caps' : Captures) => _).
  set (d' := fun (s' : jsstring) (caps' : Captures) => _).
  assert (m d s (clear gs caps) = m d' s (clear gs caps)) as ->; [|done].
  apply Hm. intros s' caps' Hs'. unfold d, d'.
  destruct (Nat.eqb_spec min 0) as [->|Hmin];
    destruct (Nat.eqb_spec (length s') (length s)) as [Hlen|Hlen];
    cbn [andb]; try done; apply IH; lia.
Qed.

Lemma rx_m_Repeat_fuel min max greedy r fuel k s caps :
  min + length s < fuel ->
  rx_m (Repeat min max greedy r) k s caps
  = repeat_m (rx_m r) (groups r) greedy fuel min max k s caps.
Proof.
  intros Hf. cbn [rx_m]. apply repeat_m_fuel; [apply rx_m_local|lia|done].
Qed.

(** [2 * length S + 1] steps are enough for [split]: more fuel gives the
    same result. *)
Lemma split_loop_fuel (m : Matcher) S : forall fuel fuel' p q,
  2 * (length S - q) + (if p =? q then 0 else 1) < fuel ->
  2 * (length S - q) + (if p =? q then 0 else 1) < fuel' ->
  split_loop m S fuel p q = split_loop m S fuel' p q.
Proof.
  induction fuel as [|fuel IH]; intros fuel' p q Hf Hf'; [lia|].
  destruct fuel' as [|fuel']; [lia|]. cbn [split_loop].
  destruct (Nat.leb_spec (length S) q) as [|Hq]; [done|].
  assert (split_loop m S fuel p (q + 1) = split_loop m S fuel' p (q + 1)) as Hnext.
  { apply IH; destruct (Nat.eqb_spec p q), (Nat.eqb_spec p (q + 1)); lia. }
  destruct (m S q) as [[len caps]|]; [|done].
  destruct (Nat.eqb_spec ((q + len) `min` length S) p) as [|Hne]; [done|].
  f_equal. f_equal.
  apply IH; rewrite Nat.eqb_refl; destruct (Nat.eqb_spec p q); lia.
Qed.

Lemma split_fuel (m : Matcher) S fuel :
  S <> [] -> 2 * length S < fuel -> split m S = split_loop m S fuel 0 0.
Proof.
  intros HS Hf. destruct S as [|c S]; [done|].
  unfold split. apply split_loop_fuel; cbn [Nat.eqb]; lia.
Qed.

End Fuel.

(** ** Matching the literals *)

Section Matching.

Lemma drop_cons_lt {A} (l : list A) q x rest :
  drop q l = x :: rest -> q < length l /\ l !! q = Some x /\ drop (q + 1) l = rest.
Proof.
  intros Hd.
  assert (q < length l) as Hlt.
  { destruct (decide (q < length l)) as [|Hge]; [done|].
    rewrite drop_ge in Hd by lia. done. }
  split; [done|]. split.
  - pose proof (lookup_drop l q 0) as E. rewrite Hd, Nat.add_0_r in E. done.
  - pose proof (drop_drop l 1 q) as E. rewrite Hd in E. simpl in E.
    rewrite drop_0 in E. done.
Qed.

Lemma exec_newline_LF S q rest :
  drop q S = LF :: rest -> rx_exec re_newline S q = Some (1, []).
Proof.
  intros Hd. destruct (drop_cons_lt _ _ _ _ Hd) as (Hlt & _ & _).
  unfold rx_exec. rewrite Hd.
  destruct (Nat.leb_spec q (length S)); [|lia].
  cbn. case_bool_decide; f_equal; f_equal; lia.
Qed.

Lemma exec_newline_CRLF S q rest :
  drop q S = CR :: LF :: rest -> rx_exec re_newline S q = Some (2, []).
Proof.
  intros Hd. destruct (drop_cons_lt _ _ _ _ Hd) as (Hlt & _ & _).
  unfold rx_exec. rewrite Hd.
  destruct (Nat.leb_spec q (length S)); [|lia].
  cbn. case_bool_decide; [done|].
  destruct (length rest =? _) eqn:E; [apply Nat.eqb_eq in E; lia|].
  cbn. case_bool_decide; [|done]. f_equal; f_equal; lia.
Qed.

Lemma exec_newline_other S q c rest :
  drop q S = c :: rest -> c <> LF ->
  (c = CR -> forall rest', rest <> LF :: rest') ->
  rx_exec re_newline S q = None.
Proof.
  intros Hd HLF HCR. destruct (drop_cons_lt _ _ _ _ Hd) as (Hlt & _ & _).
  unfold rx_exec. rewrite Hd.
  destruct (Nat.leb_spec q (length S)); [|lia].
  cbn. case_bool_decide; [done|].
  destruct (N.eqb_spec c LF) as [|_]; [done|].
  destruct (N.eqb_spec c CR) as [->|_]; [|done].
  destruct (length rest =? _) eqn:E; [apply Nat.eqb_eq in E; lia|].
  rewrite Nat.add_1_r. cbn.
  destruct rest as [|d rest']; [done|].
  destruct (N.eqb_spec d LF) as [->|_]; [|done].
  by destruct (HCR eq_refl rest').
Qed.

(** [split] on [/\r?\n/] cuts the text exactly at its LF and CR LF line
    endings. *)
Lemma split_loop_newline S fuel : forall p q,
  p <= q <= length S -> length S - q < fuel ->
  split_loop (rx_exec re_newline) S fuel p q
  = Some <$> split_lines false (substring p q S) (drop q S).
Proof.
  induction fuel as [|fuel IH]; intros p q Hpq Hfuel; [lia|].
  cbn [split_loop].
  destruct (drop q S) as [|c rest] eqn:Hd.
  - assert (q = length S) as ->.
    { apply (f_equal length) in Hd. rewrite length_drop in Hd. simpl in Hd. lia. }
    rewrite Nat.leb_refl. done.
  - destruct (drop_cons_lt _ _ _ _ Hd) as (Hlt & Hc & Hrest).
    destruct (Nat.leb_spec (length S) q); [lia|].
    cbn [split_lines].
    destruct (N.eqb_spec c LF) as [->|HLF].
    { rewrite (exec_newline_LF _ _ _ Hd).
      replace ((q + 1) `min` length S) with (q + 1) by lia.
      destruct (Nat.eqb_spec (q + 1) p); [lia|].
      rewrite IH by lia. rewrite substring_empty, Hrest. done. }
    destruct (N.eqb_spec c CR) as [->|HCR].
    + destruct rest as [|d rest'].
      { rewrite (exec_newline_other _ _ _ _ Hd) by done.
        rewrite IH by lia. by rewrite (substring_snoc _ _ _ _ (proj1 Hpq) Hc), Hrest. }
      destruct (N.eqb_spec d LF) as [->|HdLF].
      * rewrite (exec_newline_CRLF _ _ _ Hd).
        destruct (drop_cons_lt _ _ _ _ Hrest) as (Hlt2 & _ & Hrest2).
        replace ((q + 2) `min` length S) with (q + 2) by lia.
        destruct (Nat.eqb_spec (q + 2) p); [lia|].
        rewrite IH by lia. rewrite substring_empty.
        replace (q + 2) with (q + 1 + 1) by lia. by rewrite Hrest2.
      * rewrite (exec_newline_other _ _ _ _ Hd) by congruence.
        rewrite IH by lia. by rewrite (substring_snoc _ _ _ _ (proj1 Hpq) Hc), Hrest.
    + rewrite (exec_newline_other _ _ _ _ Hd) by done.
      rewrite IH by lia. by rewrite (substring_snoc _ _ _ _ (proj1 Hpq) Hc), Hrest.
Qed.

Lemma split_newline S :
  split (rx_exec re_newline) S = Some <$> split_lines false [] S.
Proof.
  destruct S as [|c S]; [done|].
  unfold split. rewrite split_loop_newline by (simpl; lia).
  by rewrite substring_empty, drop_0.
Qed.

Lemma mapM_callTrim_Some (l : list jsstring) :
  mapM callTrim (Some <$> l) = Some (trim <$> l).
Proof.
  induction l as [|x l IH]; [done|]. cbn. rewrite IH. done.
Qed.

(** The lines kept by [parseTextToRows]; computing them never throws. *)
Lemma lines_of_retained text : lines_of text = Some (retained_lines false text).
Proof.
  unfold lines_of. rewrite split_newline, mapM_callTrim_Some. done.
Qed.

End Matching.

(** ** Patterns without capturing groups *)

Section GroupFree.

Lemma repeat_m_groupfree (m : Cont -> Cont) greedy :
  (forall k s caps z, m k s caps = Some z -> exists s', k s' caps = Some z) ->
  forall fuel min max k s caps z,
    repeat_m m [] greedy fuel min max k s caps = Some z ->
    exists s', k s' caps = Some z.
Proof.
  intros Hm. induction fuel as [|fuel IH]; intros min max k s caps z; [done|].
  cbn [repeat_m clear foldr].
  set (d := fun (s' : jsstring) (caps' : Captures) => _).
  assert (forall z', m d s caps = Some z' -> exists s', k s' caps = Some z') as Hd.
  { intros z' Hz'. apply Hm in Hz' as [s1 Hs1]. unfold d in Hs1.
    destruct (_ && _); [done|]. by apply IH in Hs1. }
  case_bool_decide; [by eauto|].
  destruct (0 <? min); [by apply Hd|].
  destruct greedy.
  - destruct (m d s caps) as [z'|] eqn:E.
    + intros [= <-]. by apply Hd.
    + by eauto.
  - destruct (k s caps) as [z'|] eqn:E.
    + intros [= <-]. by eauto.
    + by apply Hd.
Qed.

(** A pattern without groups hands the captures it was given to its
    continuation. *)
Lemma rx_m_groupfree r :
  groups r = [] ->
  forall k s caps z, rx_m r k s caps = Some z -> exists s', k s' caps = Some z.
Proof.
  induction r as [|c|cs|r1 IH1 r2 IH2|r1 IH1 r2 IH2|min max greedy r IH|i r IH];
    cbn [groups rx_m]; intros Hg k s caps z.
  - by eauto.
  - destruct s as [|x s]; [done|]. destruct (x =? c)%N; [by eauto|done].
  - destruct s as [|x s]; [done|]. destruct (in_charset cs x); [by eauto|done].
  - apply app_eq_nil in Hg as [Hg1 Hg2]. intros Hz.
    apply (IH1 Hg1) in Hz as [s1 Hz]. by apply (IH2 Hg2) in Hz.
  - apply app_eq_nil in Hg as [Hg1 Hg2].
    destruct (rx_m r1 k s caps) as [z'|] eqn:E.
    + intros [= <-]. by apply (IH1 Hg1) in E.
    + by apply (IH2 Hg2).
  - rewrite Hg. apply repeat_m_groupfree. by apply IH.
  - done.
Qed.

Lemma rx_exec_groupfree r S q len caps :
  groups r = [] -> rx_exec r S q = Some (len, caps) -> caps = [].
Proof.
  intros Hg. unfold rx_exec, ngroups. rewrite Hg.
  destruct (q <=? length S); [|done].
  intros Hz. apply (rx_m_groupfree r Hg) in Hz as [s' [= _ <-]]. done.
Qed.

(** [split] then yields strings only, never [undefined]. *)
Lemma split_loop_strings (m : Matcher) S :
  (forall q len caps, m S q = Some (len, caps) -> caps = []) ->
  forall fuel p q, Forall is_Some (split_loop m S fuel p q).
Proof.
  intros Hm. induction fuel as [|fuel IH]; intros p q; cbn [split_loop].
  { by repeat constructor. }
  destruct (length S <=? q); [by repeat constructor|].
  destruct (m S q) as [[len caps]|] eqn:E; [|done].
  apply Hm in E as ->. destruct (_ =? p); [done|].
  constructor; [done|]. apply IH.
Qed.

Lemma split_strings (m : Matcher) S :
  (forall q len caps, m S q = Some (len, caps) -> caps = []) ->
  Forall is_Some (split m S).
Proof.
  intros Hm. destruct S as [|c S].
  - cbn. destruct (m [] 0); by repeat constructor.
  - by apply split_loop_strings.
Qed.

Lemma split_groupfree r S :
  groups r = [] -> Forall is_Some (split (rx_exec r) S).
Proof.
  intros Hg. apply split_strings. intros q len caps.
  by apply rx_exec_groupfree.
Qed.

Lemma mapM_callTrim_is_Some (l : list (option jsstring)) :
  Forall is_Some l -> is_Some (mapM callTrim l).
Proof.
  intros Hl. apply mapM_is_Some. eapply Forall_impl; [done|].
  intros x [s ->]. by eexists.
Qed.

(** A splitter that yields strings only makes the parse return. *)
Lemma rows_of_lines_is_Some (sp : Splitter) (lines : list jsstring) :
  (forall l, Forall is_Some (sp l)) ->
  is_Some (mapM (fun l => mapM callTrim (sp l)) lines).
Proof.
  intros Hsp. apply mapM_is_Some. apply Forall_forall. intros l _.
  by apply mapM_callTrim_is_Some.
Qed.

End GroupFree.

(** ** The row parser *)

Section ParserProperties.
Context {E : RegExpEngine}.

Lemma parseTextToRows_unfold text opts :
  parseTextToRows text opts
  = mapM (fun l => mapM callTrim
                     (splitter_of opts (retained_lines false text) l))
         (retained_lines false text).
Proof. unfold parseTextToRows. by rewrite lines_of_retained. Qed.

Lemma test_char c S :
  test (rx_exec (Char c)) S = true <-> c ∈ S.
Proof.
  unfold test. rewrite existsb_exists. split.
  - intros (q & _ & Hq). apply bool_decide_eq_true in Hq as [z Hz].
    unfold rx_exec in Hz. destruct (q <=? length S); [|done].
    cbn in Hz. destruct (drop q S) as [|x rest] eqn:Hd; [done|].
    destruct (N.eqb_spec x c) as [->|]; [|done].
    apply drop_cons_lt in Hd as (_ & Hc & _).
    apply list_elem_of_lookup. eauto.
  - intros (q & Hq)%list_elem_of_lookup. exists q.
    pose proof (lookup_lt_Some _ _ _ Hq) as Hlt. split.
    + apply in_seq. lia.
    + apply bool_decide_eq_true. unfold rx_exec.
      destruct (Nat.leb_spec q (length S)); [|lia].
      rewrite (drop_S _ _ _ Hq). cbn. rewrite N.eqb_refl. by eexists.
Qed.

Lemma split_lines_Forall (P : char -> Prop) b n : forall s cur,
  length s <= n -> Forall P cur -> Forall P s ->
  Forall (Forall P) (split_lines b cur s).
Proof.
  induction n as [|n IH]; intros s cur Hn Hcur Hs.
  { destruct s; [|simpl in Hn; lia]. by repeat constructor. }
  destruct s as [|c s]; [by repeat constructor|].
  apply Forall_cons in Hs as [Hc Hs]. simpl in Hn.
  assert (Forall P (cur ++ [c])) as Hsnoc.
  { apply Forall_app. by repeat constructor. }
  cbn [split_lines].
  destruct (c =? LF)%N.
  { constructor; [done|]. apply IH; [lia|done..]. }
  destruct (c =? CR)%N; [|apply IH; [lia|done..]].
  destruct s as [|d s].
  { destruct b; by repeat constructor. }
  pose proof Hs as Hs'. apply Forall_cons in Hs' as [_ Hs'']. simpl in Hn.
  destruct (d =? LF)%N.
  { constructor; [done|]. apply IH; [lia|done..]. }
  destruct b.
  - constructor; [done|]. apply IH; [simpl; lia|done..].
  - apply IH; [simpl; lia|done..].
Qed.

Lemma retained_lines_spaces b text :
  Forall (fun c => is_space c = true) text -> retained_lines b text = [].
Proof.
  intros Ht. unfold retained_lines.
  pose proof (split_lines_Forall _ b (length text) text [] (le_n _)
                (Forall_nil_2 _) Ht) as Hall.
  induction Hall as [|l ls Hl _ IH]; [done|].
  cbn. by rewrite (trim_spaces l Hl).
Qed.

(** The splitters of the four fixed policies and of [auto] yield strings
    only. *)
Lemma autoGuess_strings lines l : Forall is_Some (autoGuess lines l).
Proof.
  unfold autoGuess. repeat case_match; by apply split_groupfree.
Qed.

(** C4: when the sample, the first ten retained lines joined by LF,
    contains the character [|], parsing under [auto] returns what parsing
    under [pipe] returns, whatever else the sample contains. *)
Theorem auto_with_pipe_in_sample_is_pipe text cp cp' lines :
  lines_of text = Some lines ->
  PIPE ∈ join [LF] (take 10 lines) ->
  parseTextToRows text {| Parser.delimiter := auto; Parser.customPattern := cp |}
  = parseTextToRows text {| Parser.delimiter := pipe; Parser.customPattern := cp' |}.
Proof.
  intros Hlines Hpipe. unfold parseTextToRows. rewrite Hlines. cbn.
  unfold autoGuess, re_has_pipe.
  apply test_char in Hpipe. by rewrite Hpipe.
Qed.

(** C5: when the custom pattern does not compile, parsing under [custom]
    does not throw and returns the rows that parsing under [spaces]
    returns. *)
Theorem invalid_custom_pattern_is_spaces text p cp :
  RegExp_new p = None ->
  is_Some (parseTextToRows text {| Parser.delimiter := custom; Parser.customPattern := Some p |})
  /\ parseTextToRows text {| Parser.delimiter := custom; Parser.customPattern := Some p |}
     = parseTextToRows text {| Parser.delimiter := spaces; Parser.customPattern := cp |}.
Proof.
  intros Hp. rewrite !parseTextToRows_unfold.
  unfold splitter_of. cbn. rewrite Hp. split; [|done].
  apply rows_of_lines_is_Some. intros l. by apply split_groupfree.
Qed.

(** C6, as the code has it: for every policy the rows are computed from
    the lines obtained by cutting the text at its LF and CR LF line endings
    (a CR that no LF follows does not end a line), trimming each piece and
    dropping the pieces that are then empty, in the order of the text. *)
Theorem lines_are_cut_at_LF_and_CRLF text opts :
  lines_of text = Some (retained_lines false text)
  /\ parseTextToRows text opts
     = mapM (fun l => mapM callTrim
                        (splitter_of opts (retained_lines false text) l))
            (retained_lines false text).
Proof.
  split; [apply lines_of_retained | apply parseTextToRows_unfold].
Qed.

(** C8: a text that is empty or made of white space only parses to no rows
    under every policy, without throwing. *)
Theorem blank_text_parses_to_no_rows text opts :
  forallb is_space text = true ->
  parseTextToRows text opts = Some [].
Proof.
  intros Ht. rewrite parseTextToRows_unfold.
  rewrite retained_lines_spaces; [done|].
  apply Forall_forall. intros c Hc. apply list_elem_of_In in Hc.
  by apply (proj1 (forallb_forall _ _) Ht).
Qed.

End ParserProperties.

(** ** The empty custom pattern *)

Section EmptyPattern.
Context {E : RegExpEngine}.

Lemma rx_exec_Empty S q :
  q <= length S -> rx_exec Empty S q = Some (0, []).
Proof.
  intros Hq. unfold rx_exec. destruct (Nat.leb_spec q (length S)); [|lia].
  cbn. by rewrite Nat.sub_diag.
Qed.

(** With a pattern that matches the empty string everywhere, [split] cuts
    between all the code units. *)
Lemma split_loop_everywhere (m : Matcher) S :
  (forall q, q <= length S -> m S q = Some (0, [])) ->
  forall n p fuel,
    length S - p = n -> p < length S -> 2 * n <= fuel ->
    split_loop m S fuel p (p + 1) = (fun c => Some [c]) <$> drop p S.
Proof.
  intros Hm. induction n as [|n IH]; intros p fuel Hn Hp Hfuel; [lia|].
  destruct fuel as [|[|fuel]]; [lia..|].
  destruct (drop p S) as [|c rest] eqn:Hd.
  { apply (f_equal length) in Hd. rewrite length_drop in Hd. simpl in Hd. lia. }
  apply drop_cons_lt in Hd as (_ & Hc & Hrest).
  assert (substring p (p + 1) S = [c]) as Hsub.
  { by rewrite (substring_snoc _ _ _ _ (le_n _) Hc), substring_empty. }
  cbn [split_loop].
  destruct (Nat.leb_spec (length S) (p + 1)) as [Hend|Hmore].
  - replace (length S) with (p + 1) by lia. rewrite Hsub.
    assert (rest = []) as ->; [|done].
    rewrite <-Hrest. apply drop_ge. lia.
  - rewrite Hm by lia.
    replace ((p + 1 + 0) `min` length S) with (p + 1) by lia.
    destruct (Nat.eqb_spec (p + 1) p); [lia|].
    rewrite Hsub. cbn [app fmap list_fmap]. f_equal.
    destruct (Nat.leb_spec (length S) (p + 1)); [lia|].
    rewrite Hm by lia.
    replace ((p + 1 + 0) `min` length S) with (p + 1) by lia.
    rewrite Nat.eqb_refl. rewrite (IH (p + 1) fuel) by lia.
    by rewrite Hrest.
Qed.

Lemma split_everywhere (m : Matcher) S :
  (forall q, q <= length S -> m S q = Some (0, [])) ->
  split m S = (fun c => Some [c]) <$> S.
Proof.
  intros Hm. destruct S as [|c S].
  { cbn. by rewrite Hm. }
  unfold split. remember (c :: S) as T eqn:HT.
  assert (0 < length T) as Hlen by (subst T; simpl; lia).
  replace (2 * length T + 1) with (Datatypes.S (2 * length T)) by lia.
  cbn [split_loop]. destruct (Nat.leb_spec (length T) 0); [lia|].
  rewrite Hm by lia.
  replace ((0 + 0) `min` length T) with 0 by lia. cbn [Nat.eqb].
  rewrite (split_loop_everywhere m T Hm (length T) 0) by lia.
  by rewrite drop_0.
Qed.

(** C10: the custom-pattern field starts as the empty string; when the
    engine compiles the empty pattern to the expression that matches the
    empty string (as ECMAScript defines it), parsing under [custom] with
    that pattern does not use the [spaces] splitter: every retained line
    yields one cell per code unit, the trimmed one-character string. *)
Theorem empty_custom_pattern_splits_every_character text re :
  RegExp_new (Agent.customPattern initial_state) = Some re ->
  (forall S q, RegExp_exec re S q = rx_exec Empty S q) ->
  parseTextToRows text {| Parser.delimiter := custom;
                          Parser.customPattern :=
                            Some (Agent.customPattern initial_state) |}
  = (fun lines => (fun l : jsstring => (fun c => trim [c]) <$> l) <$> lines)
      <$> lines_of text.
Proof.
  intros Hnew Hexec. unfold parseTextToRows.
  destruct (lines_of text) as [lines|]; [|done]. cbn.
  unfold splitter_of. cbn. change (js "") with (@nil char) in Hnew.
  unfold initial_state in Hnew. cbn in Hnew. rewrite Hnew.
  induction lines as [|l lines IH]; [done|].
  cbn. rewrite IH. clear IH.
  rewrite split_everywhere.
  2:{ intros q Hq. rewrite Hexec. by apply rx_exec_Empty. }
  assert (mapM callTrim ((fun c => Some [c]) <$> l)
          = Some ((fun c => trim [c]) <$> l)) as ->; [|done].
  clear. induction l as [|c l IH]; [done|]. cbn. rewrite IH. done.
Qed.

End EmptyPattern.

(** ** The recognition jobs *)

Section Jobs.
Context {E : RegExpEngine}.

Lemma heap_update_at i upd st :
  heap (update_at i upd st)
  = match extracts st !! i with
    | Some l => alter upd l (heap st)
    | None => heap st
    end.
Proof. unfold update_at. by destruct (extracts st !! i). Qed.

Lemma tasks_update_at i upd st : tasks (update_at i upd st) = tasks st.
Proof. unfold update_at. by destruct (extracts st !! i). Qed.

Lemma extracts_update_at i upd st : extracts (update_at i upd st) = extracts st.
Proof. unfold update_at. by destruct (extracts st !! i). Qed.

(** An updater of a task writes to the record at its index and to no
    other. *)
Lemma update_at_frame i upd st l :
  extracts st !! i <> Some l ->
  heap (update_at i upd st) !! l = heap st !! l.
Proof.
  intros Hl. rewrite heap_update_at.
  destruct (extracts st !! i) as [l'|]; [|done].
  apply list_lookup_alter_ne. congruence.
Qed.

Lemma update_at_target i upd st l :
  extracts st !! i = Some l ->
  heap (update_at i upd st) !! l = upd <$> heap st !! l.
Proof.
  intros Hl. rewrite heap_update_at, Hl. apply list_lookup_alter_eq.
Qed.

Lemma logger_cases i m st :
  logger i m st = st
  \/ exists p, logger i m st = update_at i (set_progress p) st.
Proof.
  unfold logger. destruct (m_progress m) as [p|]; [|by left].
  case_bool_decide; [right; by exists p|by left].
Qed.

Lemma running_Some t st tk :
  running t st = Some tk <-> tasks st !! t = Some tk /\ settled tk = false.
Proof.
  unfold running. destruct (tasks st !! t) as [tk'|]; cbn.
  - destruct (settled tk') eqn:Hs; split.
    + done.
    + intros [[= ->] ?]. congruence.
    + intros [= ->]. done.
    + intros [[= ->] _]. done.
  - split; [done|]. by intros [? _].
Qed.

(** The state after a notification of task [t]: the task was running, and
    one of its three updaters ran at its index. *)
Lemma step_task ev t st st' :
  task_of ev = Some t -> step ev st = Some st' ->
  exists tk, running t st = Some tk /\
    ((exists m, ev = LoggerCalled t m /\ st' = logger (localIndex tk) m st)
     \/ exists upd, (forall m, ev <> LoggerCalled t m)
          /\ (forall r, terminal (status (upd r)) = true)
          /\ st' = settle t (update_at (localIndex tk) upd st)).
Proof.
  intros Hev Hstep.
  destruct ev as [fs|t0 m|t0 d|t0 d| | | |v|d|v]; try done;
    injection Hev as ->; cbn in Hstep;
    destruct (running t st) as [tk|] eqn:Hrun; try done;
    injection Hstep as <-; exists tk; (split; [done|]).
  - left. by exists m.
  - right. by eexists (set_done _).
  - right. by eexists (set_error _).
Qed.

Lemma step_task_extracts ev t st st' :
  task_of ev = Some t -> step ev st = Some st' -> extracts st' = extracts st.
Proof.
  intros Hev Hstep.
  destruct (step_task _ _ _ _ Hev Hstep) as (tk & _ & [(m & _ & ->)|(upd & _ & _ & ->)]).
  - destruct (logger_cases (localIndex tk) m st) as [->|[p ->]]; [done|].
    apply extracts_update_at.
  - cbn. apply extracts_update_at.
Qed.

(** Notifications never change a task's index or record, and no settled
    task runs again. *)
Lemma step_task_tasks ev t st st' t' tk' :
  task_of ev = Some t -> step ev st = Some st' ->
  tasks st' !! t' = Some tk' ->
  exists tk0, tasks st !! t' = Some tk0
    /\ localIndex tk' = localIndex tk0 /\ job tk' = job tk0
    /\ (settled tk' = false ->
        settled tk0 = false /\ (t' = t -> exists m, ev = LoggerCalled t m)).
Proof.
  intros Hev Hstep.
  destruct (step_task _ _ _ _ Hev Hstep) as (tk & _ & [(m & -> & ->)|(upd & _ & _ & ->)]).
  - assert (tasks (logger (localIndex tk) m st) = tasks st) as ->.
    { destruct (logger_cases (localIndex tk) m st) as [->|[p ->]]; [done|].
      apply tasks_update_at. }
    intros Ht'. exists tk'. eauto 10.
  - cbn. rewrite tasks_update_at, list_lookup_alter.
    case_decide as Ht.
    + subst t'. destruct (tasks st !! t) as [tk0|]; [|done].
      intros [= <-]. exists tk0. cbn. by repeat split.
    + intros Ht'. exists tk'. by repeat split.
Qed.

Lemma step_task_length ev t st st' :
  task_of ev = Some t -> step ev st = Some st' ->
  length (tasks st') = length (tasks st) /\ length (heap st') = length (heap st).
Proof.
  intros Hev Hstep.
  destruct (step_task _ _ _ _ Hev Hstep) as (tk & _ & [(m & _ & ->)|(upd & _ & _ & ->)]).
  - destruct (logger_cases (localIndex tk) m st) as [->|[p ->]]; [done|].
    rewrite tasks_update_at, heap_update_at.
    destruct (extracts st !! _); by rewrite ?length_alter.
  - cbn. rewrite length_alter, tasks_update_at, heap_update_at.
    destruct (extracts st !! _); by rewrite ?length_alter.
Qed.

(** A notification of task [t] leaves alone every record but the one at
    [t]'s index, and keeps the status of that one unless it ends [t]. *)
Lemma step_task_heap ev t st st' :
  task_of ev = Some t -> step ev st = Some st' ->
  exists tk, running t st = Some tk
    /\ (forall l, extracts st !! localIndex tk <> Some l ->
          heap st' !! l = heap st !! l)
    /\ (forall l m r, ev = LoggerCalled t m -> heap st !! l = Some r ->
          exists r', heap st' !! l = Some r' /\ status r' = status r).
Proof.
  intros Hev Hstep.
  destruct (step_task _ _ _ _ Hev Hstep) as (tk & Hrun & [(m & -> & ->)|(upd & Hne & _ & ->)]);
    exists tk; (split; [done|]); split.
  - intros l Hl.
    destruct (logger_cases (localIndex tk) m st) as [->|[p ->]]; [done|].
    by apply update_at_frame.
  - intros l m' r _ Hr.
    destruct (logger_cases (localIndex tk) m st) as [->|[p ->]]; [by eauto|].
    destruct (decide (extracts st !! localIndex tk = Some l)) as [Hl|Hl].
    + rewrite (update_at_target _ _ _ _ Hl). rewrite Hr. by eexists.
    + rewrite (update_at_frame _ _ _ _ Hl). by eauto.
  - intros l Hl. cbn. by apply update_at_frame.
  - intros l m r Hm. by destruct (Hne m).
Qed.

Lemma handleFiles_heap n files st :
  heap (handleFiles n files st)
  = heap st ++ ((fun f => {| fileName := name f; text := js ""; progress := 0%Q;
                             status := Recognizing; error := None |})
                  <$> default [] files).
Proof. destruct files as [[|f fs]|]; cbn; by rewrite ?app_nil_r. Qed.

Lemma handleFiles_extracts n files st :
  extracts (handleFiles n files st)
  = extracts st ++ seq (length (heap st)) (length (default [] files)).
Proof. destruct files as [[|f fs]|]; cbn; by rewrite ?app_nil_r. Qed.

Lemma handleFiles_tasks n files st :
  tasks (handleFiles n files st)
  = tasks st ++ imap (fun index _ => {| localIndex := n + index;
                                        job := length (heap st) + index;
                                        settled := false |})
                     (default [] files).
Proof. destruct files as [[|f fs]|]; cbn; by rewrite ?app_nil_r. Qed.

(** The task started for the [i]-th file of a batch: its index is the
    closed-over length plus [i], and its record is the one created for
    that file. *)
Lemma handleFiles_started n files st i f :
  default [] files !! i = Some f ->
  exists tk r,
    tasks (handleFiles n files st) !! (length (tasks st) + i) = Some tk
    /\ localIndex tk = n + i /\ settled tk = false
    /\ job tk = length (heap st) + i
    /\ heap (handleFiles n files st) !! job tk = Some r
    /\ fileName r = name f /\ status r = Recognizing
    /\ extracts (handleFiles n files st) !! (length (extracts st) + i)
       = Some (job tk).
Proof.
  intros Hf. pose proof (lookup_lt_Some _ _ _ Hf) as Hi.
  rewrite handleFiles_tasks, handleFiles_heap, handleFiles_extracts.
  exists {| localIndex := n + i; job := length (heap st) + i; settled := false |},
         {| fileName := name f; text := js ""; progress := 0%Q;
            status := Recognizing; error := None |}.
  cbn [localIndex job settled fileName status].
  split; [|split; [done|split; [done|split; [done|split; [|split; [done|split; [done|]]]]]]].
  - rewrite lookup_app_r by lia.
    replace (length (tasks st) + i - length (tasks st)) with i by lia.
    rewrite list_lookup_imap, Hf. done.
  - rewrite lookup_app_r by lia.
    replace (length (heap st) + i - length (heap st)) with i by lia.
    rewrite list_lookup_fmap, Hf. done.
  - rewrite lookup_app_r by lia.
    replace (length (extracts st) + i - length (extracts st)) with i by lia.
    by rewrite lookup_seq_lt.
Qed.

Lemma handleAppend_frame st :
  heap (handleAppend st) = heap st /\ tasks (handleAppend st) = tasks st
  /\ extracts (handleAppend st) = extracts st.
Proof. unfold handleAppend. by destruct (parsedBlocks st). Qed.

(** What an event that is no task's notification does to the records, the
    array and the tasks: [handleFiles] extends them, [clearAll] empties the
    array, nothing else touches them. *)
Lemma step_user ev st st' :
  task_of ev = None -> step ev st = Some st' ->
  (exists files, ev = FilesGiven files
     /\ st' = handleFiles (length (extracts st)) files st)
  \/ (heap st' = heap st /\ tasks st' = tasks st
      /\ (extracts st' = extracts st \/ ev = ClearClicked)).
Proof.
  intros Hev Hstep.
  destruct ev as [fs|t0 m|t0 d|t0 d| | | |v|d|v]; try done;
    injection Hstep as <-; [left; by eauto|right..]; cbn; try by eauto.
  destruct (handleAppend_frame st) as (-> & -> & ->). by eauto.
Qed.

Lemma own_index_step ev st st' :
  is_clear ev = false -> own_index st -> step ev st = Some st' -> own_index st'.
Proof.
  intros Hclear Hinv Hstep t tk Ht.
  destruct (task_of ev) as [t0|] eqn:Hev.
  - rewrite (step_task_extracts _ _ _ _ Hev Hstep).
    destruct (step_task_tasks _ _ _ _ _ _ Hev Hstep Ht) as (tk0 & Ht0 & -> & -> & _).
    by apply (Hinv t).
  - destruct (step_user _ _ _ Hev Hstep) as [(files & -> & ->)|(_ & Htasks & Hex)].
    + rewrite handleFiles_tasks in Ht. rewrite handleFiles_extracts.
      apply lookup_app_Some in Ht as [Ht|[Hge Ht]].
      { apply lookup_app_l_Some. by apply (Hinv t). }
      rewrite list_lookup_imap in Ht.
      destruct (default [] files !! _) as [f|] eqn:Hf; [|done].
      injection Ht as <-. cbn. pose proof (lookup_lt_Some _ _ _ Hf).
      rewrite lookup_app_r by lia.
      replace (length (extracts st) + _ - length (extracts st))
        with (t - length (tasks st)) by lia.
      by rewrite lookup_seq_lt.
    + destruct Hex as [Hex | ->]; [|done].
      rewrite Hex. rewrite Htasks in Ht. by apply (Hinv t).
Qed.

Lemma jobs_allocated_step ev st st' :
  jobs_allocated st -> step ev st = Some st' -> jobs_allocated st'.
Proof.
  intros [Hlen Hjob] Hstep.
  destruct (task_of ev) as [t0|] eqn:Hev.
  - destruct (step_task_length _ _ _ _ Hev Hstep) as [Hlt Hlh].
    split; [congruence|]. intros t tk Ht.
    destruct (step_task_tasks _ _ _ _ _ _ Hev Hstep Ht) as (tk0 & Ht0 & _ & -> & _).
    by apply Hjob.
  - destruct (step_user _ _ _ Hev Hstep) as [(files & -> & ->)|(Hh & Ht & _)].
    2:{ unfold jobs_allocated. by rewrite Hh, Ht. }
    unfold jobs_allocated. rewrite handleFiles_tasks, handleFiles_heap. split.
    { rewrite !length_app, length_fmap, length_imap. lia. }
    intros t tk Ht. apply lookup_app_Some in Ht as [Ht|[Hge Ht]].
    { by apply Hjob. }
    rewrite list_lookup_imap in Ht.
    destruct (default [] files !! _) as [f|] eqn:Hf; [|done].
    injection Ht as <-. cbn. lia.
Qed.

Lemma running_recognizing_step ev st st' :
  is_clear ev = false ->
  own_index st -> jobs_allocated st -> running_recognizing st ->
  step ev st = Some st' -> running_recognizing st'.
Proof.
  intros Hclear Hown [Hlen Hjob] Hrec Hstep t tk Hrun.
  apply running_Some in Hrun as [Ht Hs].
  destruct (task_of ev) as [t0|] eqn:Hev.
  - destruct (step_task_tasks _ _ _ _ _ _ Hev Hstep Ht)
      as (tk0 & Ht0 & _ & -> & Hs0).
    destruct (Hs0 Hs) as [Hs0' Hlog].
    destruct (Hrec t tk0) as (r & Hr & Hst); [by apply running_Some|].
    destruct (step_task_heap _ _ _ _ Hev Hstep) as (tk1 & Hrun1 & Hframe & Hkeep).
    apply running_Some in Hrun1 as [Ht1 _].
    destruct (decide (t = t0)) as [->|Hne].
    + destruct (Hlog eq_refl) as [m ->].
      destruct (Hkeep _ _ _ eq_refl Hr) as (r' & Hr' & Hst').
      exists r'. split; [done|congruence].
    + exists r. split; [|done]. rewrite Hframe; [done|].
      rewrite (Hown _ _ Ht1). rewrite (Hjob _ _ Ht1), (Hjob _ _ Ht0). congruence.
  - destruct (step_user _ _ _ Hev Hstep) as [(files & -> & ->)|(Hheap & Htasks & _)].
    + rewrite handleFiles_tasks in Ht. rewrite handleFiles_heap.
      apply lookup_app_Some in Ht as [Ht|[Hge Ht]].
      { destruct (Hrec t tk) as (r & Hr & Hst); [by apply running_Some|].
        exists r. split; [|done]. by apply lookup_app_l_Some. }
      rewrite list_lookup_imap in Ht.
      destruct (default [] files !! _) as [f|] eqn:Hf; [|done].
      injection Ht as <-. cbn. pose proof (lookup_lt_Some _ _ _ Hf).
      rewrite lookup_app_r by lia.
      replace (length (heap st) + _ - length (heap st))
        with (t - length (tasks st)) by lia.
      rewrite list_lookup_fmap, Hf. by eexists.
    + rewrite Hheap. apply (Hrec t). apply running_Some. by rewrite <-Htasks.
Qed.

(** The three invariants hold along every run that clears nothing. *)
Lemma invariants_run evs : forall st st',
  forallb (fun ev => negb (is_clear ev)) evs = true ->
  own_index st /\ jobs_allocated st /\ running_recognizing st ->
  run evs st = Some st' ->
  own_index st' /\ jobs_allocated st' /\ running_recognizing st'.
Proof.
  induction evs as [|ev evs IH]; intros st st' Hevs Hinv Hrun.
  { by injection Hrun as <-. }
  cbn in Hevs, Hrun. apply andb_true_iff in Hevs as [Hev Hevs].
  apply negb_true_iff in Hev.
  destruct (step ev st) as [st1|] eqn:Hstep; [|done]. cbn in Hrun.
  destruct Hinv as (Hown & Hjobs & Hrec).
  apply (IH st1 st' Hevs); [|done]. split; [|split].
  - by eapply own_index_step.
  - by eapply jobs_allocated_step.
  - by eapply running_recognizing_step.
Qed.

Lemma invariants_initial :
  own_index initial_state /\ jobs_allocated initial_state
  /\ running_recognizing initial_state.
Proof.
  split; [done|]. split; [done|].
  intros t tk Hrun. apply running_Some in Hrun as [Ht _]. done.
Qed.

(** As long as nothing is cleared, a progress, completion or error
    notification of a task finds at the task's index the record created
    for the task's own file, and changes no other record, also when
    batches are submitted while tasks of earlier batches are running. *)
Lemma task_events_reach_only_their_own_record evs st ev t st' :
  forallb (fun e => negb (is_clear e)) evs = true ->
  run evs initial_state = Some st ->
  task_of ev = Some t ->
  step ev st = Some st' ->
  exists tk, tasks st !! t = Some tk
    /\ extracts st !! localIndex tk = Some (job tk)
    /\ forall l, l <> job tk -> heap st' !! l = heap st !! l.
Proof.
  intros Hevs Hrun Hev Hstep.
  destruct (invariants_run _ _ _ Hevs invariants_initial Hrun) as (Hown & _ & _).
  destruct (step_task_heap _ _ _ _ Hev Hstep) as (tk & Htk & Hframe & _).
  apply running_Some in Htk as [Htk _].
  exists tk. split; [done|]. split; [by apply (Hown t)|].
  intros l Hl. apply Hframe. rewrite (Hown _ _ Htk). congruence.
Qed.

(** Without a clear, a record that has reached [done] or [error] is not
    changed by any later event. *)
Lemma terminal_records_are_final_without_clear evs st ev st' l r :
  forallb (fun e => negb (is_clear e)) evs = true ->
  run evs initial_state = Some st ->
  step ev st = Some st' ->
  heap st !! l = Some r -> terminal (status r) = true ->
  heap st' !! l = Some r.
Proof.
  intros Hevs Hrun Hstep Hr Hterm.
  destruct (invariants_run _ _ _ Hevs invariants_initial Hrun) as (Hown & _ & Hrec).
  destruct (task_of ev) as [t|] eqn:Hev.
  - destruct (step_task_heap _ _ _ _ Hev Hstep) as (tk & Htk & Hframe & _).
    rewrite Hframe; [done|].
    destruct (Hrec _ _ Htk) as (r0 & Hr0 & Hst).
    apply running_Some in Htk as [Htk _]. rewrite (Hown _ _ Htk).
    intros [= Hl]. rewrite Hl, Hr in Hr0. injection Hr0 as <-.
    by rewrite Hst in Hterm.
  - destruct (step_user _ _ _ Hev Hstep) as [(files & -> & ->)|(-> & _ & _)];
      [|done].
    rewrite handleFiles_heap. by apply lookup_app_l_Some.
Qed.

End Jobs.

(** ** The row table *)

Section Table.
Context {E : RegExpEngine}.

Lemma length_concat_rows {A} (blocks : list (list A)) :
  length (concat blocks) = sum_list_with length blocks.
Proof.
  induction blocks as [|b blocks IH]; [done|].
  cbn. rewrite length_app, IH. done.
Qed.

Lemma lookup_concat_rows {A} (blocks : list (list A)) j b i x :
  blocks !! j = Some b -> b !! i = Some x ->
  concat blocks !! (sum_list_with length (take j blocks) + i) = Some x.
Proof.
  revert j. induction blocks as [|b0 blocks IH]; intros j Hb Hx; [done|].
  destruct j as [|j]; cbn in *.
  - injection Hb as ->. by apply lookup_app_l_Some.
  - rewrite lookup_app_r by lia.
    replace (length b0 + sum_list_with length (take j blocks) + i - length b0)
      with (sum_list_with length (take j blocks) + i) by lia.
    by apply IH.
Qed.

(** C7: when the texts of the done jobs parse to the batches [blocks],
    [handleAppend] puts all their rows after the rows already in the table:
    the table grows by the sum of the batch sizes, the rows it had stay
    where they were, and row [i] of batch [j] comes after all rows of the
    batches before [j] and the rows before [i] in its batch. *)
Theorem append_puts_all_batches_at_the_end st blocks :
  parsedBlocks st = Some blocks ->
  rows (handleAppend st) = rows st ++ concat blocks
  /\ length (rows (handleAppend st))
     = length (rows st) + sum_list_with length blocks
  /\ (forall i, i < length (rows st) ->
        rows (handleAppend st) !! i = rows st !! i)
  /\ (forall j b i row, blocks !! j = Some b -> b !! i = Some row ->
        rows (handleAppend st)
          !! (length (rows st) + sum_list_with length (take j blocks) + i)
        = Some row).
Proof.
  intros Hblocks.
  assert (rows (handleAppend st) = rows st ++ concat blocks) as ->.
  { unfold handleAppend. by rewrite Hblocks. }
  split; [done|]. split; [|split].
  - by rewrite length_app, length_concat_rows.
  - intros i Hi. by apply lookup_app_l.
  - intros j b i row Hb Hrow. rewrite lookup_app_r by lia.
    replace (length (rows st) + _ + i - length (rows st))
      with (sum_list_with length (take j blocks) + i) by lia.
    by eapply lookup_concat_rows.
Qed.

(** C9: the "Clear rows" button empties the rows and leaves the column
    labels, and the text they are read from, as they were. *)
Theorem clear_rows_keeps_the_columns st :
  step ClearRowsClicked st = Some (clearRows st)
  /\ rows (clearRows st) = []
  /\ columnsInput (clearRows st) = columnsInput st
  /\ columns (clearRows st) = columns st.
Proof. done. Qed.

End Table.

(** ** The properties at concrete inputs *)

Section Examples.
#[local] Existing Instance ReferenceEngine.

(** The two parsing scenarios of the specification. *)
Example parse_pipe_table :
  parseTextToRows (js "Item | Qty | Price" ++ [LF] ++ js "Apple | 3 | 1.20")
                  (options auto (Some (js "")))
  = Some [[js "Item"; js "Qty"; js "Price"]; [js "Apple"; js "3"; js "1.20"]].
Proof. vm_compute. reflexivity. Qed.

Example parse_spaced_table :
  parseTextToRows (js "A    B    C" ++ [LF] ++ js "X    Y    Z")
                  (options spaces (Some (js "")))
  = Some [[js "A"; js "B"; js "C"]; [js "X"; js "Y"; js "Z"]].
Proof. vm_compute. reflexivity. Qed.

(** A valid custom pattern with a capturing group that stays unmatched
    makes [split] return [undefined], and trimming it throws. *)
Example unmatched_capture_throws :
  parseTextToRows (js "a;b ; c") (options custom (Some (js "(;)|b"))) = None.
Proof. vm_compute. reflexivity. Qed.

(** The failed job is left out of the append and the done one gives two
    rows. *)
Example append_after_one_failure :
  (handleAppend <$> run one_failure_one_success initial_state)
    ≫= (fun st => Some (rows st, status <$> records st))
  = Some ([[js "a"; js "b"]; [js "c"; js "d"]], [Error; Done]).
Proof. vm_compute. reflexivity. Qed.

(** Were [handleFiles] called twice from one render, both calls would close
    over the same length and their tasks would share an index; [step]
    relies on the render that React performs between two user actions. *)
Example one_render_two_calls_share_an_index :
  let st := handleFiles 0 (Some [file "b.png"])
              (handleFiles 0 (Some [file "a.png"]) initial_state) in
  localIndex <$> tasks st = [0; 0] /\ job <$> tasks st = [0; 1].
Proof. split; reflexivity. Qed.

Lemma task_events_reach_only_their_own_record_witness :
  exists st st',
    run overlapping_batches initial_state = Some st
    /\ step (LoggerCalled 2 (recognizing_text (1 # 2))) st = Some st'
    /\ exists tk, tasks st !! 2 = Some tk
         /\ extracts st !! localIndex tk = Some (job tk)
         /\ forall l, l <> job tk -> heap st' !! l = heap st !! l.
Proof.
  eexists _, _. split; [vm_compute; reflexivity|].
  split; [vm_compute; reflexivity|].
  apply (task_events_reach_only_their_own_record overlapping_batches _
           (LoggerCalled 2 (recognizing_text (1 # 2))) 2 _);
    vm_compute; reflexivity.
Defined.

(** C1, on the code: a batch is submitted while the task of an earlier
    batch is still running, the list having been cleared in between. The
    earlier task computed index 0 for the record of its own file; that
    index now designates the record of the later file. Each of its
    notifications, progress, completion and error, leaves the record of
    its own job alone and changes the record of the other job. *)
Theorem earlier_task_event_changes_job_of_later_batch :
  exists st tk,
    run clear_then_resubmit initial_state = Some st
    /\ running 0 st = Some tk /\ job tk = 0
    /\ fileName <$> heap st !! 0 = Some (js "a.png")
    /\ fileName <$> heap st !! 1 = Some (js "b.png")
    /\ extracts st !! localIndex tk = Some 1
    /\ Forall (fun ev =>
                task_of ev = Some 0
                /\ exists st', step ev st = Some st'
                     /\ heap st' !! 0 = heap st !! 0
                     /\ heap st' !! 1 <> heap st !! 1)
              [LoggerCalled 0 (recognizing_text (1 # 2));
               Resolved 0 (Some (js "text of a"));
               Rejected 0 (Some (js "failed"))].
Proof.
  eexists _, _. split; [vm_compute; reflexivity|].
  split; [vm_compute; reflexivity|].
  do 4 (split; [vm_compute; reflexivity|]).
  repeat constructor; eexists;
    (split; [vm_compute; reflexivity|]);
    (split; [vm_compute; reflexivity|]); vm_compute; discriminate.
Qed.

(** C2, on the code: a task started before [clearAll] completes after a
    new file was submitted. Its index, 0, now designates the record of the
    new file, and its text, progress and status are written there; so are
    its progress and its error. The record created for its own file is
    left as it was. *)
Theorem stale_task_writes_to_record_created_after_clear :
  exists st,
    run clear_then_resubmit initial_state = Some st
    /\ job <$> tasks st !! 0 = Some 0
    /\ fileName <$> heap st !! 0 = Some (js "a.png")
    /\ records st
       = [{| fileName := js "b.png"; text := js ""; progress := 0%Q;
             status := Recognizing; error := None |}]
    /\ records <$> step (Resolved 0 (Some (js "text of a"))) st
       = Some [{| fileName := js "b.png"; text := js "text of a";
                  progress := 1%Q; status := Done; error := None |}]
    /\ records <$> step (LoggerCalled 0 (recognizing_text (1 # 2))) st
       = Some [{| fileName := js "b.png"; text := js ""; progress := (1 # 2)%Q;
                  status := Recognizing; error := None |}]
    /\ records <$> step (Rejected 0 (Some (js "failed"))) st
       = Some [{| fileName := js "b.png"; text := js ""; progress := 0%Q;
                  status := Error; error := Some (js "failed") |}]
    /\ (fun st' => heap st' !! 0) <$> step (Resolved 0 (Some (js "text of a"))) st
       = Some (heap st !! 0).
Proof. eexists. repeat split; vm_compute; reflexivity. Qed.

(** C3, on the code: after a clear and a new submission, the record of the
    new file reaches [done]; a progress notification of the task started
    before the clear then overwrites the progress of that record. *)
Theorem done_record_is_written_again_after_clear :
  exists st,
    run (clear_then_resubmit ++ [Resolved 1 (Some (js "text of b"))])
        initial_state = Some st
    /\ records st
       = [{| fileName := js "b.png"; text := js "text of b"; progress := 1%Q;
             status := Done; error := None |}]
    /\ records <$> step (LoggerCalled 0 (recognizing_text (1 # 2))) st
       = Some [{| fileName := js "b.png"; text := js "text of b";
                  progress := (1 # 2)%Q; status := Done; error := None |}].
Proof. eexists. repeat split; vm_compute; reflexivity. Qed.

Lemma auto_with_pipe_in_sample_is_pipe_witness :
  let text := js "Item | Qty, n" ++ [TAB] ++ js "x" ++ [LF] ++ js "Apple | 3, 1" in
  PIPE ∈ join [LF] (take 10 (default [] (lines_of text)))
  /\ parseTextToRows text (options auto None)
     = parseTextToRows text (options pipe None).
Proof.
  split.
  - apply (bool_decide_unpack _). vm_compute. exact I.
  - eapply auto_with_pipe_in_sample_is_pipe.
    + vm_compute. reflexivity.
    + apply (bool_decide_unpack _). vm_compute. exact I.
Defined.

Lemma invalid_custom_pattern_is_spaces_witness :
  RegExp_new (js "(") = None
  /\ is_Some (parseTextToRows (js "A    B") (options custom (Some (js "("))))
  /\ parseTextToRows (js "A    B") (options custom (Some (js "(")))
     = parseTextToRows (js "A    B") (options spaces None).
Proof.
  split; [vm_compute; reflexivity|].
  apply (invalid_custom_pattern_is_spaces (js "A    B") (js "(") None).
  vm_compute. reflexivity.
Defined.

Example split_lines_mixed_endings :
  split_lines false [] (js "a" ++ [CR; LF] ++ js "b" ++ [LF; LF] ++ js "c" ++ [CR] ++ js "d")
  = [js "a"; js "b"; js ""; js "c" ++ [CR] ++ js "d"]
  /\ split_lines true [] (js "a" ++ [CR; LF] ++ js "b" ++ [LF; LF] ++ js "c" ++ [CR] ++ js "d")
    = [js "a"; js "b"; js ""; js "c"; js "d"].
Proof. split; reflexivity. Qed.

(** C6 as the specification words it, with a CR alone counted as a line
    ending, fails: the text "a", CR, "b" is kept as one line. *)
Lemma lone_CR_does_not_end_a_line :
  let text := js "a" ++ [CR] ++ js "b" in
  lines_of text = Some [text]
  /\ retained_lines true text = [js "a"; js "b"]
  /\ lines_of text <> Some (retained_lines true text).
Proof. repeat split; vm_compute; [reflexivity..|discriminate]. Qed.

Lemma blank_text_parses_to_no_rows_witness :
  forallb is_space [SPACE; TAB; CR; LF; SPACE] = true
  /\ parseTextToRows [SPACE; TAB; CR; LF; SPACE] (options custom (Some (js ";")))
     = Some [].
Proof.
  split; [reflexivity|].
  apply (blank_text_parses_to_no_rows [SPACE; TAB; CR; LF; SPACE]). reflexivity.
Defined.

Lemma append_puts_all_batches_at_the_end_witness :
  exists st blocks,
    handleAppend <$> run one_failure_one_success initial_state = Some st
    /\ rows st = [[js "a"; js "b"]; [js "c"; js "d"]]
    /\ parsedBlocks st = Some blocks
    /\ rows (handleAppend st) = rows st ++ concat blocks
    /\ length (rows (handleAppend st)) = 2 + sum_list_with length blocks.
Proof.
  eexists _, [[[js "a"; js "b"]; [js "c"; js "d"]]].
  split; [vm_compute; reflexivity|].
  split; [vm_compute; reflexivity|].
  split; [vm_compute; reflexivity|].
  match goal with
  | |- rows (handleAppend ?st) = _ ++ concat ?blocks /\ _ =>
      destruct (append_puts_all_batches_at_the_end st blocks) as (H1 & H2 & _)
  end.
  - vm_compute. reflexivity.
  - split; [exact H1 | exact H2].
Defined.

Lemma empty_custom_pattern_splits_every_character_witness :
  parseTextToRows (js "ab c" ++ [LF] ++ js "d")
                  (options custom (Some (Agent.customPattern initial_state)))
  = Some [[js "a"; js "b"; js ""; js "c"]; [js "d"]].
Proof.
  unfold options.
  rewrite (empty_custom_pattern_splits_every_character
             (E:=ReferenceEngine) (js "ab c" ++ [LF] ++ js "d") Empty).
  - vm_compute. reflexivity.
  - vm_compute. reflexivity.
  - intros S q. reflexivity.
Defined.

End Examples.

(** ** More on strings *)

Section Trimming.

Lemma last_rev {A} (l : list A) : last (rev l) = head l.
Proof. destruct l as [|x l]; [done|]. cbn [rev]. apply last_snoc. Qed.

Lemma trimStart_idemp s : trimStart (trimStart s) = trimStart s.
Proof.
  induction s as [|c s IH]; [done|]. cbn.
  destruct (is_space c) eqn:Hc; [done|]. cbn. by rewrite Hc.
Qed.

Lemma trimStart_head s c : head (trimStart s) = Some c -> is_space c = false.
Proof.
  induction s as [|x s IH]; [done|]. cbn.
  destruct (is_space x) eqn:Hx; [done|]. cbn. by intros [= <-].
Qed.

Lemma trimStart_snoc s c :
  is_space c = false -> trimStart (s ++ [c]) = trimStart s ++ [c].
Proof.
  intros Hc. induction s as [|x s IH]; cbn; [by rewrite Hc|].
  by destruct (is_space x).
Qed.

Lemma trimStart_snoc_space s c :
  is_space c = true ->
  trimStart (s ++ [c]) = match trimStart s with [] => [] | t => t ++ [c] end.
Proof.
  intros Hc. induction s as [|x s IH]; cbn; [by rewrite Hc|].
  by destruct (is_space x).
Qed.

Lemma trimStart_suffix s : trimStart s `suffix_of` s.
Proof.
  induction s as [|x s IH]; [done|]. cbn.
  destruct (is_space x); [by apply suffix_cons_r|done].
Qed.

Lemma trimEnd_prefix s : trimEnd s `prefix_of` s.
Proof.
  unfold trimEnd. destruct (trimStart_suffix (rev s)) as [k Hk].
  exists (rev k). apply (f_equal (@rev _)) in Hk.
  rewrite rev_involutive, rev_app_distr in Hk. done.
Qed.

Lemma trim_elem s c : c ∈ trim s -> c ∈ s.
Proof.
  unfold trim. intros Hc.
  destruct (trimEnd_prefix (trimStart s)) as [k Hk].
  destruct (trimStart_suffix s) as [k' Hk'].
  rewrite Hk', Hk. rewrite !elem_of_app. by eauto.
Qed.

Lemma trimEnd_cons c s :
  is_space c = false -> trimEnd (c :: s) = c :: trimEnd s.
Proof.
  intros Hc. unfold trimEnd. cbn [rev].
  by rewrite (trimStart_snoc _ _ Hc), rev_app_distr.
Qed.

Lemma trimEnd_snoc_space s c : is_space c = true -> trimEnd (s ++ [c]) = trimEnd s.
Proof.
  intros Hc. unfold trimEnd. rewrite rev_app_distr. cbn. by rewrite Hc.
Qed.

Lemma trimEnd_nil : trimEnd [] = [].
Proof. done. Qed.

(** [trim] leaves no white space at either end. *)
Lemma trim_trimmed s : trimmed (trim s).
Proof.
  unfold trim. split; intros c.
  - destruct (trimStart s) as [|x t] eqn:Ht; [done|].
    assert (is_space x = false) as Hx.
    { apply (trimStart_head s). by rewrite Ht. }
    rewrite (trimEnd_cons _ _ Hx). cbn. by intros [= <-].
  - unfold trimEnd. rewrite last_rev. apply trimStart_head.
Qed.

Lemma trimmed_trimStart s : trimmed s -> trimStart s = s.
Proof.
  intros [Hh _]. destruct s as [|c s]; [done|]. cbn.
  by rewrite (Hh c eq_refl).
Qed.

Lemma trimmed_trim s : trimmed s -> trim s = s.
Proof.
  intros Hs. unfold trim. rewrite (trimmed_trimStart s Hs).
  unfold trimEnd. destruct Hs as [_ Hl].
  assert (trimStart (rev s) = rev s) as ->; [|apply rev_involutive].
  destruct (rev s) as [|c t] eqn:Hr; [done|]. cbn.
  rewrite (Hl c); [done|]. 
  rewrite <-(rev_involutive s), Hr, last_rev. done.
Qed.

Lemma trim_idemp s : trim (trim s) = trim s.
Proof. apply trimmed_trim, trim_trimmed. Qed.

(** White space at either end of a string does not change its [trim]. *)
Lemma trim_cons_space c s : is_space c = true -> trim (c :: s) = trim s.
Proof. intros Hc. unfold trim. cbn. by rewrite Hc. Qed.

Lemma trim_snoc_space s c : is_space c = true -> trim (s ++ [c]) = trim s.
Proof.
  intros Hc. unfold trim. rewrite (trimStart_snoc_space _ _ Hc).
  destruct (trimStart s) as [|x t]; [done|].
  by rewrite (trimEnd_snoc_space _ _ Hc).
Qed.

End Trimming.

(** ** The shape of the parsed rows *)

Section RowShape.
Context {E : RegExpEngine}.

Lemma split_loop_nonempty (m : Matcher) S fuel p q : split_loop m S fuel p q <> [].
Proof.
  revert p q. induction fuel as [|fuel IH]; intros p q; cbn [split_loop]; [done|].
  destruct (length S <=? q); [done|].
  destruct (m S q) as [[len caps]|]; [|done].
  by destruct (_ =? p).
Qed.

Lemma split_nonempty (m : Matcher) S : S <> [] -> split m S <> [].
Proof.
  intros HS. destruct S as [|c S]; [done|]. apply split_loop_nonempty.
Qed.

Lemma splitter_of_split opts lines :
  exists m, splitter_of opts lines = split m.
Proof.
  unfold splitter_of, autoGuess. repeat case_match; by eexists.
Qed.

Lemma retained_lines_nonempty b text :
  Forall (fun l => l <> []) (retained_lines b text).
Proof.
  unfold retained_lines. apply Forall_forall. intros l Hl.
  apply list_elem_of_In, filter_In in Hl as [_ Hl]. by destruct l.
Qed.

Lemma mapM_callTrim_cells x row :
  mapM callTrim x = Some row ->
  length row = length x /\ Forall trimmed row.
Proof.
  intros Hrow. split; [symmetry; by eapply length_mapM|].
  apply mapM_Some in Hrow.
  induction Hrow as [|c cell x row Hc _ IH]; constructor; [|done].
  destruct c as [s|]; [|done]. injection Hc as <-. apply trim_trimmed.
Qed.

Lemma rows_of_lines_shape (m : Matcher) (ls : list jsstring) rows :
  Forall (fun l => l <> []) ls ->
  mapM (fun l => mapM callTrim (split m l)) ls = Some rows ->
  length rows = length ls /\ Forall (fun row => row <> []) rows.
Proof.
  intros Hne Hrows. apply mapM_Some in Hrows.
  induction Hrows as [|l row ls rows Hrow _ IH]; [done|].
  apply Forall_cons in Hne as [Hl Hne]. destruct (IH Hne) as [IH1 IH2].
  split; [simpl; congruence|]. constructor; [|done].
  apply mapM_callTrim_cells in Hrow as [Hlen _].
  pose proof (split_nonempty m l Hl). destruct row; [|done].
  by destruct (split m l).
Qed.

(** X1: whenever the parse returns, under any policy, there is one row per
    retained line and every row has at least one cell. *)
Theorem parse_gives_one_row_per_line text opts lines rows :
  lines_of text = Some lines ->
  parseTextToRows text opts = Some rows ->
  length rows = length lines /\ Forall (fun row => row <> []) rows.
Proof.
  intros Hlines Hrows. rewrite lines_of_retained in Hlines.
  injection Hlines as <-. rewrite parseTextToRows_unfold in Hrows.
  destruct (splitter_of_split opts (retained_lines false text)) as [m Hm].
  rewrite Hm in Hrows.
  by apply (rows_of_lines_shape m); [apply retained_lines_nonempty|].
Qed.

(** X2: no cell of a parsed row starts or ends with white space. *)
Theorem parsed_cells_are_trimmed text opts rows :
  parseTextToRows text opts = Some rows ->
  Forall (Forall trimmed) rows.
Proof.
  rewrite parseTextToRows_unfold. intros Hrows. apply mapM_Some in Hrows.
  induction Hrows as [|l row ls rows Hrow _ IH]; constructor; [|done].
  by apply mapM_callTrim_cells in Hrow as [_ Hrow].
Qed.

(** X3: under [auto], [comma], [tab], [pipe] and [spaces] the parse returns;
    only a custom pattern can make it throw. *)
Theorem parse_returns_unless_custom text opts :
  Parser.delimiter opts <> custom ->
  is_Some (parseTextToRows text opts).
Proof.
  intros Hd. rewrite parseTextToRows_unfold.
  apply rows_of_lines_is_Some. intros l.
  unfold splitter_of. destruct (Parser.delimiter opts); try done;
    first [by apply split_groupfree | apply autoGuess_strings].
Qed.

End RowShape.

(** ** Choosing and applying the splitter *)

Section Splitters.
Context {E : RegExpEngine}.

Lemma test_char_false c S : c ∉ S -> test (rx_exec (Char c)) S = false.
Proof.
  intros Hc. destruct (test (rx_exec (Char c)) S) eqn:Ht; [|done].
  by apply test_char in Ht.
Qed.

(** X4: the order in which [auto] looks for a delimiter in the sample: a
    comma counts only when there is no [|], a tab only when there is neither,
    and runs of white space are the last resort. *)
Theorem auto_follows_its_priorities text cp cp' lines :
  lines_of text = Some lines ->
  PIPE ∉ join [LF] (take 10 lines) ->
  let sample := join [LF] (take 10 lines) in
  parseTextToRows text {| Parser.delimiter := auto; Parser.customPattern := cp |}
  = parseTextToRows text
      {| Parser.delimiter :=
           if bool_decide (COMMA ∈ sample) then comma
           else if bool_decide (TAB ∈ sample) then tab else spaces;
         Parser.customPattern := cp' |}.
Proof.
  intros Hlines Hpipe sample. subst sample.
  unfold parseTextToRows. rewrite Hlines. cbn.
  unfold splitter_of, autoGuess, re_has_pipe, re_has_comma, re_tab. cbn.
  rewrite (test_char_false _ _ Hpipe).
  case_bool_decide as Hcomma.
  { apply test_char in Hcomma. by rewrite Hcomma. }
  rewrite (test_char_false _ _ Hcomma).
  case_bool_decide as Htab.
  { apply test_char in Htab. by rewrite Htab. }
  by rewrite (test_char_false _ _ Htab).
Qed.

(** A matcher runs its continuation on a suffix of its input. *)
Lemma repeat_m_suffix (m : Cont -> Cont) gs greedy :
  (forall k s caps z, m k s caps = Some z ->
     exists s' caps', s' `suffix_of` s /\ k s' caps' = Some z) ->
  forall fuel min max k s caps z,
    repeat_m m gs greedy fuel min max k s caps = Some z ->
    exists s' caps', s' `suffix_of` s /\ k s' caps' = Some z.
Proof.
  intros Hm. induction fuel as [|fuel IH]; intros min max k s caps z; [done|].
  cbn [repeat_m].
  set (d := fun (s' : jsstring) (caps' : Captures) => _).
  assert (forall z', m d s (clear gs caps) = Some z' ->
            exists s' caps', s' `suffix_of` s /\ k s' caps' = Some z') as Hd.
  { intros z' Hz'. apply Hm in Hz' as (s1 & caps1 & Hs1 & Hz'). unfold d in Hz'.
    destruct (_ && _); [done|].
    apply IH in Hz' as (s2 & caps2 & Hs2 & Hz'). exists s2, caps2.
    split; [by etrans|done]. }
  case_bool_decide; [by eauto|].
  destruct (0 <? min); [by apply Hd|].
  destruct greedy.
  - destruct (m d s (clear gs caps)) as [z'|] eqn:Ez.
    + intros [= <-]. by apply Hd.
    + by eauto.
  - destruct (k s caps) as [z'|] eqn:Ez.
    + intros [= <-]. by eauto.
    + by apply Hd.
Qed.

Lemma rx_m_suffix r : forall k s caps z,
  rx_m r k s caps = Some z ->
  exists s' caps', s' `suffix_of` s /\ k s' caps' = Some z.
Proof.
  induction r as [|c|cs|r1 IH1 r2 IH2|r1 IH1 r2 IH2|min max greedy r IH|i r IH];
    cbn [rx_m]; intros k s caps z.
  - by eauto.
  - destruct s as [|x s]; [done|]. destruct (x =? c)%N; [|done].
    intros Hz. exists s, caps. split; [by apply suffix_cons_r|done].
  - destruct s as [|x s]; [done|]. destruct (in_charset cs x); [|done].
    intros Hz. exists s, caps. split; [by apply suffix_cons_r|done].
  - intros Hz. apply IH1 in Hz as (s1 & caps1 & Hs1 & Hz).
    apply IH2 in Hz as (s2 & caps2 & Hs2 & Hz).
    exists s2, caps2. split; [by etrans|done].
  - destruct (rx_m r1 k s caps) as [z'|] eqn:Ez.
    + intros [= <-]. by apply IH1 in Ez.
    + by apply IH2.
  - by apply repeat_m_suffix.
  - intros Hz. apply IH in Hz as (s1 & caps1 & Hs1 & Hz). by eauto.
Qed.

(** The patterns built around one character match only where that
    character follows. *)
Lemma exec_needs_char (pre post : regex) c S q z :
  rx_exec (Seq pre (Seq (Char c) post)) S q = Some z -> c ∈ S.
Proof.
  unfold rx_exec. destruct (q <=? length S); [|done]. cbn [rx_m].
  intros Hz. apply rx_m_suffix in Hz as (s1 & caps1 & Hs1 & Hz).
  destruct s1 as [|x s1]; [done|].
  destruct (N.eqb_spec x c) as [->|]; [|done].
  destruct Hs1 as [k1 Hk1].
  rewrite <-(take_drop q S), Hk1, !elem_of_app. right. right. by left.
Qed.

Lemma exec_char_needs_char c S q z :
  rx_exec (Char c) S q = Some z -> c ∈ S.
Proof.
  intros Hz. apply test_char. unfold test. apply existsb_exists.
  exists q. unfold rx_exec in *.
  destruct (Nat.leb_spec q (length S)); [|done]. split.
  - apply in_seq. lia.
  - apply bool_decide_eq_true. rewrite Hz. by eexists.
Qed.

(** Without a match anywhere, [split] returns the string whole. *)
Lemma split_loop_no_match (m : Matcher) S :
  (forall q, m S q = None) ->
  forall fuel p q, split_loop m S fuel p q = [Some (drop p S)].
Proof.
  intros Hm. induction fuel as [|fuel IH]; intros p q; cbn [split_loop].
  { by rewrite substring_to_end. }
  destruct (length S <=? q); [by rewrite substring_to_end|].
  by rewrite Hm.
Qed.

Lemma split_no_match (m : Matcher) S :
  S <> [] -> (forall q, m S q = None) -> split m S = [Some S].
Proof.
  intros HS Hm. destruct S as [|c S]; [done|].
  unfold split. by rewrite split_loop_no_match.
Qed.

Lemma delimiter_char_splitter d c lines l :
  delimiter_char d = Some c -> l <> [] -> c ∉ l ->
  splitter_of {| Parser.delimiter := d; Parser.customPattern := None |} lines l
  = [Some l].
Proof.
  intros Hd Hl Hc.
  destruct d; try done; injection Hd as <-; cbn;
    apply split_no_match; try done; intros q;
    match goal with
    | |- ?m l q = None => destruct (m l q) as [z|] eqn:Ez; [|done]
    end; destruct Hc.
  - by eapply exec_needs_char.
  - by eapply exec_char_needs_char.
  - by eapply exec_needs_char.
Qed.

Lemma splitter_of_ignores_pattern d cp cp' lines :
  d <> custom ->
  splitter_of {| Parser.delimiter := d; Parser.customPattern := cp |} lines
  = splitter_of {| Parser.delimiter := d; Parser.customPattern := cp' |} lines.
Proof. by destruct d. Qed.

(** X5: under [comma], [tab] or [pipe], a retained line that does not contain
    the delimiter character becomes a row of one cell, the line itself. *)
Theorem line_without_delimiter_is_one_cell text d cp c lines rows i l :
  delimiter_char d = Some c ->
  lines_of text = Some lines ->
  parseTextToRows text {| Parser.delimiter := d; Parser.customPattern := cp |}
  = Some rows ->
  lines !! i = Some l -> c ∉ l ->
  rows !! i = Some [l].
Proof.
  intros Hd Hlines Hrows Hl Hc. unfold parseTextToRows in Hrows.
  rewrite Hlines in Hrows. cbn in Hrows.
  rewrite (splitter_of_ignores_pattern d cp None) in Hrows by (by destruct d).
  apply mapM_Some in Hrows.
  destruct (Forall2_lookup_l _ _ _ _ _ Hrows Hl) as (row & Hrow & Hcells).
  trans (Some row); [exact Hrow|]. f_equal.
  rewrite lines_of_retained in Hlines. injection Hlines as <-.
  pose proof (retained_lines_nonempty false text) as Hne.
  rewrite Forall_lookup in Hne. pose proof (Hne _ _ Hl) as Hnil.
  rewrite (delimiter_char_splitter d c _ l Hd Hnil Hc) in Hcells.
  cbn in Hcells. injection Hcells as <-. f_equal.
  apply trimmed_trim.
  unfold retained_lines in Hl. apply list_elem_of_lookup_2 in Hl.
  apply list_elem_of_In, filter_In in Hl as [Hl _].
  apply list_elem_of_In, list_elem_of_fmap in Hl as (s & -> & _).
  apply trim_trimmed.
Qed.

End Splitters.

(** ** Splitting at one character *)

Section OneCharacter.
Context {E : RegExpEngine}.

Lemma exec_char_cons c S q x rest :
  drop q S = x :: rest ->
  rx_exec (Char c) S q = if (x =? c)%N then Some (1, []) else None.
Proof.
  intros Hd. destruct (drop_cons_lt _ _ _ _ Hd) as (Hlt & _ & _).
  unfold rx_exec. rewrite Hd.
  destruct (Nat.leb_spec q (length S)); [|lia].
  cbn. destruct (x =? c)%N; [|done]. do 2 f_equal. lia.
Qed.

(** [split] on the pattern of one character cuts at every occurrence of
    it, like [split] on the one-character string. *)
Lemma split_loop_char c S fuel : forall p q,
  p <= q <= length S -> length S - q < fuel ->
  split_loop (rx_exec (Char c)) S fuel p q
  = Some <$> split_on c (substring p q S) (drop q S).
Proof.
  induction fuel as [|fuel IH]; intros p q Hpq Hfuel; [lia|].
  cbn [split_loop].
  destruct (drop q S) as [|x rest] eqn:Hd.
  - assert (q = length S) as ->.
    { apply (f_equal length) in Hd. rewrite length_drop in Hd. simpl in Hd. lia. }
    rewrite Nat.leb_refl. done.
  - destruct (drop_cons_lt _ _ _ _ Hd) as (Hlt & Hx & Hrest).
    destruct (Nat.leb_spec (length S) q); [lia|].
    rewrite (exec_char_cons _ _ _ _ _ Hd). cbn [split_on].
    destruct (x =? c)%N.
    + replace ((q + 1) `min` length S) with (q + 1) by lia.
      destruct (Nat.eqb_spec (q + 1) p); [lia|].
      rewrite IH by lia. by rewrite substring_empty, Hrest.
    + rewrite IH by lia.
      by rewrite (substring_snoc _ _ _ _ (proj1 Hpq) Hx), Hrest.
Qed.

Lemma split_char c S :
  split (rx_exec (Char c)) S = Some <$> split_on c [] S.
Proof.
  destruct S as [|x S]; [done|].
  unfold split. rewrite split_loop_char by (simpl; lia).
  by rewrite substring_empty, drop_0.
Qed.

(** X6: under [tab] every retained line is cut at each tab character and
    the pieces are trimmed. *)
Theorem tab_policy_cuts_at_every_tab text cp :
  parseTextToRows text {| Parser.delimiter := tab; Parser.customPattern := cp |}
  = (fun lines => (fun l => trim <$> split_on TAB [] l) <$> lines)
      <$> lines_of text.
Proof.
  unfold parseTextToRows. destruct (lines_of text) as [lines|]; [|done]. cbn.
  induction lines as [|l lines IH]; [done|].
  cbn. rewrite IH. unfold re_tab.
  by rewrite split_char, mapM_callTrim_Some.
Qed.

End OneCharacter.

(** ** Parsing line by line *)

Section LineByLine.
Context {E : RegExpEngine}.

Lemma is_space_CR : is_space CR = true.
Proof. reflexivity. Qed.

(** The lines kept from two texts joined by a line feed are the lines of
    the first followed by the lines of the second. *)
Lemma retained_from_app n b : forall a cur,
  length a <= n ->
  List.filter (fun l : jsstring => 0 <? length l)
              (trim <$> split_lines false cur (a ++ LF :: b))
  = List.filter (fun l : jsstring => 0 <? length l)
                (trim <$> split_lines false cur a)
    ++ retained_lines false b.
Proof.
  induction n as [|n IH]; intros a cur Hn.
  { destruct a; [|simpl in Hn; lia].
    cbn [app split_lines fmap list_fmap List.filter]. rewrite N.eqb_refl.
    cbn [fmap list_fmap List.filter]. by destruct (0 <? length (trim cur)). }
  destruct a as [|c a].
  { cbn [app split_lines fmap list_fmap List.filter]. rewrite N.eqb_refl.
    cbn [fmap list_fmap List.filter]. by destruct (0 <? length (trim cur)). }
  simpl in Hn. cbn [app split_lines].
  destruct (c =? LF)%N.
  { cbn [fmap list_fmap List.filter]. rewrite (IH a []) by lia.
    by destruct (0 <? length (trim cur)). }
  destruct (N.eqb_spec c CR) as [->|]; [|apply IH; lia].
  destruct a as [|d a].
  { cbn [app]. rewrite N.eqb_refl.
    cbn [fmap list_fmap List.filter].
    rewrite (trim_snoc_space _ _ is_space_CR).
    by destruct (0 <? length (trim cur)). }
  cbn [app]. simpl in Hn. destruct (d =? LF)%N.
  { cbn [fmap list_fmap List.filter]. rewrite (IH a []) by lia.
    by destruct (0 <? length (trim cur)). }
  apply (IH (d :: a)). simpl. lia.
Qed.

Lemma retained_lines_app a b :
  retained_lines false (a ++ LF :: b)
  = retained_lines false a ++ retained_lines false b.
Proof. unfold retained_lines at 1 2. by apply (retained_from_app (length a)). Qed.

Lemma mapM_app_option {A B} (f : A -> option B) l1 l2 :
  mapM f (l1 ++ l2)
  = x ← mapM f l1; y ← mapM f l2; Some (x ++ y).
Proof.
  induction l1 as [|a l1 IH]; cbn.
  { by destruct (mapM f l2). }
  destruct (f a); [|done]. cbn. rewrite IH.
  destruct (mapM f l1); [|done]. cbn. by destruct (mapM f l2).
Qed.

Lemma splitter_of_fixed opts lines lines' :
  Parser.delimiter opts <> auto ->
  splitter_of opts lines = splitter_of opts lines'.
Proof. unfold splitter_of. by destruct (Parser.delimiter opts). Qed.

(** X7: under every policy but [auto], lines are parsed one by one: the
    rows of two texts joined by a line feed are the rows of the first
    followed by the rows of the second (and the parse throws when one of
    the two does). *)
Theorem parse_of_joined_texts text1 text2 opts :
  Parser.delimiter opts <> auto ->
  parseTextToRows (text1 ++ LF :: text2) opts
  = rows1 ← parseTextToRows text1 opts;
    rows2 ← parseTextToRows text2 opts;
    Some (rows1 ++ rows2).
Proof.
  intros Hd. rewrite !parseTextToRows_unfold, retained_lines_app.
  rewrite mapM_app_option.
  rewrite (splitter_of_fixed opts (_ ++ _) [] Hd).
  rewrite (splitter_of_fixed opts (retained_lines false text1) [] Hd).
  rewrite (splitter_of_fixed opts (retained_lines false text2) [] Hd).
  done.
Qed.

End LineByLine.

(** ** The column labels *)

Section Columns.

Lemma split_on_pieces c s : forall cur,
  c ∉ cur -> Forall (fun piece => c ∉ piece) (split_on c cur s).
Proof.
  induction s as [|x s IH]; intros cur Hcur; cbn [split_on].
  { by repeat constructor. }
  destruct (N.eqb_spec x c) as [->|Hx].
  - constructor; [done|]. apply IH. by apply not_elem_of_nil.
  - apply IH. rewrite elem_of_app, list_elem_of_singleton.
    intros [?|?]; [done|congruence].
Qed.

Lemma split_on_whole c l : forall cur,
  c ∉ l -> split_on c cur l = [cur ++ l].
Proof.
  induction l as [|x l IH]; intros cur Hc; cbn [split_on].
  { by rewrite app_nil_r. }
  apply not_elem_of_cons in Hc as [Hx Hc].
  destruct (N.eqb_spec x c) as [->|_]; [done|].
  rewrite IH by done. by rewrite <-app_assoc.
Qed.

Lemma split_on_app c l rest : forall cur,
  c ∉ l -> split_on c cur (l ++ c :: rest) = (cur ++ l) :: split_on c [] rest.
Proof.
  induction l as [|x l IH]; intros cur Hc; cbn [app split_on].
  { by rewrite N.eqb_refl, app_nil_r. }
  apply not_elem_of_cons in Hc as [Hx Hc].
  destruct (N.eqb_spec x c) as [->|_]; [done|].
  rewrite IH by done. by rewrite <-app_assoc.
Qed.

(** X8: every column label is non-empty, has no white space at its ends
    and contains no comma, whatever is typed in the field. *)
Theorem column_labels_are_clean st :
  Forall (fun label => label <> [] /\ trimmed label /\ COMMA ∉ label)
         (columns st).
Proof.
  unfold columns. apply Forall_forall. intros label Hl.
  apply list_elem_of_In, filter_In in Hl as [Hl Hne].
  apply list_elem_of_In, list_elem_of_fmap in Hl as (piece & -> & Hpiece).
  split; [by destruct (trim piece)|]. split; [apply trim_trimmed|].
  intros Hc. apply trim_elem in Hc.
  pose proof (split_on_pieces COMMA (columnsInput st) [] (not_elem_of_nil _)) as Hall.
  rewrite Forall_forall in Hall. by apply (Hall piece).
Qed.

Lemma columns_of_joined_labels x labels cur :
  cur = [] \/ cur = [SPACE] ->
  Forall (fun label => label <> [] /\ trimmed label /\ COMMA ∉ label)
         (x :: labels) ->
  List.filter (fun c : jsstring => 0 <? length c)
              (trim <$> split_on COMMA cur (join (js ", ") (x :: labels)))
  = x :: labels.
Proof.
  revert x cur. induction labels as [|y labels IH]; intros x cur Hcur Hall.
  - apply Forall_cons in Hall as [(Hne & Htr & Hc) _].
    cbn [join]. rewrite (split_on_whole _ _ _ Hc).
    cbn [fmap list_fmap List.filter].
    assert (trim (cur ++ x) = x) as ->.
    { destruct Hcur as [-> | ->]; [by apply trimmed_trim|].
      cbn [app]. rewrite trim_cons_space by done. by apply trimmed_trim. }
    by destruct x.
  - apply Forall_cons in Hall as [(Hne & Htr & Hc) Hall].
    change (join (js ", ") (x :: y :: labels))
      with (x ++ COMMA :: SPACE :: join (js ", ") (y :: labels)).
    rewrite (split_on_app _ _ _ _ Hc).
    cbn [fmap list_fmap List.filter split_on].
    change (SPACE =? COMMA)%N with false. cbn [app].
    rewrite (IH y [SPACE]) by eauto.
    assert (trim (cur ++ x) = x) as ->.
    { destruct Hcur as [-> | ->]; [by apply trimmed_trim|].
      cbn [app]. rewrite trim_cons_space by done. by apply trimmed_trim. }
    by destruct x.
Qed.

(** X9: typing clean labels separated by a comma and a space gives back
    exactly those labels, in order. *)
Theorem columns_of_typed_labels st labels :
  Forall (fun label => label <> [] /\ trimmed label /\ COMMA ∉ label) labels ->
  columns (setColumnsInput (join (js ", ") labels) st) = labels.
Proof.
  intros Hall. unfold columns. cbn [columnsInput setColumnsInput].
  destruct labels as [|x labels]; [done|].
  by apply columns_of_joined_labels; [left|].
Qed.

End Columns.

(** ** The tables and the exported header *)

Section Tables.

Lemma max_width_bounds cols (rs : list Row) :
  length cols <= max_width cols rs
  /\ Forall (fun r => length r <= max_width cols rs) rs
  /\ (max_width cols rs = length cols
      \/ exists r, r ∈ rs /\ max_width cols rs = length r).
Proof.
  unfold max_width. split; [|split].
  - apply max_list_elem_of_le. by left.
  - apply Forall_forall. intros r Hr. apply max_list_elem_of_le.
    right. apply elem_of_app. left. by apply list_elem_of_fmap_2.
  - pose proof (max_list_elem_of (length cols :: (length <$> rs) ++ [0])) as Hin.
    specialize (Hin ltac:(done)).
    apply elem_of_cons in Hin as [Hin|Hin]; [by left|].
    apply elem_of_app in Hin as [Hin|Hin].
    + apply list_elem_of_fmap in Hin as (r & Hr & Hin). right. by exists r.
    + apply list_elem_of_singleton in Hin. left.
      pose proof (max_list_elem_of_le (length cols)
                    (length cols :: (length <$> rs) ++ [0])) as Hle.
      specialize (Hle ltac:(by left)). lia.
Qed.

(** X10: [maxCols] is the larger of the number of labels and the length of
    the longest row. *)
Theorem maxCols_is_the_largest_width st :
  length (columns st) <= maxCols st
  /\ Forall (fun r => length r <= maxCols st) (rows st)
  /\ (maxCols st = length (columns st)
      \/ exists r, r ∈ rows st /\ maxCols st = length r).
Proof. apply max_width_bounds. Qed.

Lemma fmap_const_seq {A} (d : A) k : forall a,
  (fun _ => d) <$> seq a k = replicate k d.
Proof. induction k as [|k IH]; intros a; [done|]. cbn. by rewrite IH. Qed.

Lemma cells_present {A} (l : list A) (g : nat -> A) : forall pre,
  (fun i => default (g i) ((pre ++ l) !! i)) <$> seq (length pre) (length l) = l.
Proof.
  induction l as [|x l IH]; intros pre; [done|].
  cbn [length seq fmap list_fmap]. f_equal.
  - by rewrite list_lookup_middle.
  - specialize (IH (pre ++ [x])).
    rewrite length_app, <-app_assoc in IH. cbn in IH.
    by rewrite Nat.add_1_r in IH.
Qed.

(** Reading [n] cells off a list that has at most [n], with a default for
    the missing ones. *)
Lemma cells_with_default {A} (l : list A) (g : nat -> A) n :
  length l <= n ->
  (fun i => default (g i) (l !! i)) <$> seq 0 n
  = l ++ (g <$> seq (length l) (n - length l)).
Proof.
  intros Hn. replace n with (length l + (n - length l)) at 1 by lia.
  rewrite seq_app, fmap_app. f_equal.
  - apply (cells_present l g []).
  - apply list_fmap_ext. intros i j Hj.
    apply lookup_seq in Hj as [-> _].
    by rewrite lookup_ge_None_2 by lia.
Qed.

(** X11: the table of appended rows is rectangular: its header and each of
    its rows have [maxCols] cells, and a row is shown in full, followed by
    empty cells. *)
Theorem table_is_rectangular st :
  length (table_head st) = maxCols st
  /\ table_body st
     = (fun r : Row => r ++ replicate (maxCols st - length r) (js ""))
         <$> rows st
  /\ Forall (fun cells => length cells = maxCols st) (table_body st).
Proof.
  destruct (max_width_bounds (columns st) (rows st)) as (_ & Hrows & _).
  fold (maxCols st) in Hrows.
  assert (table_body st
          = (fun r : Row => r ++ replicate (maxCols st - length r) (js ""))
              <$> rows st) as Hbody.
  { unfold table_body. apply Forall_fmap_ext_1.
    eapply Forall_impl; [exact Hrows|]. intros r Hr. cbn beta.
    etrans; [exact (cells_with_default r (fun _ => js "") _ Hr)|].
    f_equal. apply fmap_const_seq. }
  split; [|split; [done|]].
  - unfold table_head. by rewrite length_fmap, length_seq.
  - rewrite Hbody. apply Forall_fmap. eapply Forall_impl; [exact Hrows|].
    intros r Hr. cbn beta in Hr. unfold compose.
    rewrite length_app, length_replicate. lia.
Qed.

(** X12: the header of the table shows the labels, then [col_k] for every
    further position [k], counted from 1. *)
Theorem table_head_is_labels_then_numbers st :
  table_head st
  = columns st
    ++ (col_label <$> seq (length (columns st))
                          (maxCols st - length (columns st))).
Proof.
  destruct (max_width_bounds (columns st) (rows st)) as (Hcols & _ & _).
  fold (maxCols st) in Hcols. unfold table_head, tableHasColumns.
  destruct (Nat.ltb_spec 0 (length (columns st))) as [Hpos|Hzero].
  - by apply cells_with_default.
  - destruct (columns st); [|simpl in Hzero; lia].
    cbn [length app]. by rewrite Nat.sub_0_r.
Qed.

Lemma uint_chars_inj d d' : uint_chars d = uint_chars d' -> d = d'.
Proof.
  revert d'. induction d as [|d IH|d IH|d IH|d IH|d IH|d IH|d IH|d IH|d IH|d IH];
    intros [|d'|d'|d'|d'|d'|d'|d'|d'|d'|d']; cbn; intros [=]; try done;
    f_equal; by apply IH.
Qed.

Lemma col_label_inj i j : col_label i = col_label j -> i = j.
Proof.
  unfold col_label, decimal. intros Heq. apply app_inv_head in Heq.
  apply uint_chars_inj in Heq.
  apply (f_equal Nat.of_uint) in Heq. rewrite !Unsigned.of_to in Heq. lia.
Qed.

(** X13: with no label configured, the exported header is [col_1] ...
    [col_n] for [n] the length of the longest row: its names are pairwise
    different and no row is longer than it. *)
Theorem export_header_without_labels st :
  columns st = [] ->
  export_header st = col_label <$> seq 0 (maxCols st)
  /\ NoDup (export_header st)
  /\ Forall (fun r => length r <= length (export_header st)) (rows st)
  /\ (rows st <> [] ->
      exists r, r ∈ rows st /\ length r = length (export_header st)).
Proof.
  intros Hcols.
  destruct (max_width_bounds (columns st) (rows st)) as (_ & Hrows & Hmax).
  fold (maxCols st) in Hrows, Hmax.
  assert (export_header st = col_label <$> seq 0 (maxCols st)) as ->.
  { unfold export_header. by rewrite Hcols. }
  rewrite length_fmap, length_seq. split; [done|]. split; [|split; [done|]].
  - apply NoDup_fmap_2; [|apply NoDup_seq]. intros i j. apply col_label_inj.
  - intros Hne. destruct Hmax as [Hmax|(r & Hr & Hmax)]; [|by eauto].
    assert (maxCols st = 0) as Hzero by (by rewrite Hmax, Hcols).
    destruct (rows st) as [|r rs]; [done|]. exists r. split; [by left|].
    apply Forall_cons in Hrows as [Hr _]. lia.
Qed.

(** X14: with labels configured, the exported header is the labels alone.
    It is not extended to the length of the rows, so a row longer than the
    labels has cells under no exported name, though the table on screen
    names them. *)
Theorem export_header_with_labels st r :
  columns st <> [] -> r ∈ rows st -> length (columns st) < length r ->
  export_header st = columns st
  /\ length (export_header st) < length r
  /\ length (export_header st) < length (table_head st).
Proof.
  intros Hcols Hr Hlen.
  assert (export_header st = columns st) as ->.
  { unfold export_header. destruct (columns st); done. }
  split; [done|]. split; [done|].
  destruct (max_width_bounds (columns st) (rows st)) as (_ & Hrows & _).
  fold (maxCols st) in Hrows. rewrite Forall_forall in Hrows.
  specialize (Hrows r Hr).
  unfold table_head. rewrite length_fmap, length_seq. lia.
Qed.

(** X15: in the preview table every row is shown in full and padded to the
    number of labels only; no row has more cells than the header. *)
Theorem preview_rows_fit_under_the_header st preview :
  preview_body st preview
  = (fun r : Row => r ++ replicate (length (columns st) - length r) (js ""))
      <$> preview
  /\ Forall (fun cells => length cells <= length (preview_head st preview))
            (preview_body st preview).
Proof.
  assert (preview_body st preview
          = (fun r : Row => r ++ replicate (length (columns st) - length r) (js ""))
              <$> preview) as Hbody.
  { unfold preview_body. apply list_fmap_ext. intros _ r _. cbn beta.
    etrans; [apply (cells_with_default r (fun _ => js "")); lia|].
    f_equal. replace (length (columns st) `max` length r - length r)
      with (length (columns st) - length r) by lia.
    apply fmap_const_seq. }
  split; [done|]. rewrite Hbody.
  destruct (max_width_bounds (columns st) preview) as (Hcols & Hrows & _).
  unfold preview_head. rewrite length_fmap, length_seq.
  apply Forall_fmap. eapply Forall_impl; [exact Hrows|].
  intros r Hr. cbn beta in Hr. unfold compose.
  rewrite length_app, length_replicate. lia.
Qed.

End Tables.

(** ** Appending and previewing *)

Section Appending.
Context {E : RegExpEngine}.

Lemma trimStart_nil_spaces s :
  trimStart s = [] -> Forall (fun c => is_space c = true) s.
Proof.
  induction s as [|c s IH]; [done|]. cbn.
  destruct (is_space c) eqn:Hc; [|done]. intros Hs. by constructor; [|apply IH].
Qed.

Lemma trim_nil_spaces s : trim s = [] -> Forall (fun c => is_space c = true) s.
Proof.
  unfold trim. intros Hs. apply trimStart_nil_spaces.
  destruct (trimStart s) as [|x t] eqn:Ht; [done|].
  assert (is_space x = false) as Hx.
  { apply (trimStart_head s). by rewrite Ht. }
  by rewrite (trimEnd_cons _ _ Hx) in Hs.
Qed.

(** A text whose [trim] is empty has no line to parse. *)
Lemma blank_text_no_rows text opts :
  trim text = [] -> parseTextToRows text opts = Some [].
Proof.
  intros Ht. rewrite parseTextToRows_unfold.
  by rewrite (retained_lines_spaces false text (trim_nil_spaces _ Ht)).
Qed.

Lemma parsedBlocks_handleAppend st :
  parsedBlocks (handleAppend st) = parsedBlocks st.
Proof.
  unfold parsedBlocks, records.
  destruct (handleAppend_frame st) as (-> & _ & ->).
  unfold handleAppend. by destruct (parsedBlocks st).
Qed.

(** X16: Append does not remember what it has appended: pressing it twice
    without any change in the jobs appends the same rows twice. *)
Theorem appending_twice_duplicates_the_rows st blocks :
  parsedBlocks st = Some blocks ->
  rows (handleAppend (handleAppend st))
  = rows st ++ concat blocks ++ concat blocks.
Proof.
  intros Hb. unfold handleAppend at 1. rewrite parsedBlocks_handleAppend, Hb.
  cbn. unfold handleAppend. rewrite Hb. cbn. by rewrite <-app_assoc.
Qed.

(** X17: jobs that are not done, and done jobs whose text is blank, give
    no row: when every job is one of these, Append leaves the table as it
    is. *)
Theorem append_skips_unfinished_and_blank_jobs st :
  Forall (fun x => status x <> Done \/ trim (text x) = []) (records st) ->
  rows (handleAppend st) = rows st.
Proof.
  intros Hall. unfold handleAppend, parsedBlocks.
  assert (List.filter (fun x => bool_decide (status x = Done)
                                && (0 <? length (trim (text x))))
                      (records st) = []) as ->.
  { induction Hall as [|x xs Hx _ IH]; [done|]. cbn [List.filter].
    destruct Hx as [Hx|Hx].
    - by rewrite bool_decide_eq_false_2.
    - rewrite Hx. by rewrite andb_false_r. }
  cbn. by rewrite app_nil_r.
Qed.

(** X18: Append is all or nothing: when the text of one done job makes the
    parse throw, no row is appended, not even the rows of the other
    jobs. *)
Theorem append_adds_nothing_when_a_parse_throws st x :
  x ∈ records st -> status x = Done -> trim (text x) <> [] ->
  parseTextToRows (text x)
    {| Parser.delimiter := delimiter st;
       Parser.customPattern := Some (customPattern st) |} = None ->
  rows (handleAppend st) = rows st.
Proof.
  intros Hx Hdone Hblank Hthrow. unfold handleAppend.
  destruct (parsedBlocks st) as [blocks|] eqn:Hb; [|done].
  unfold parsedBlocks in Hb. apply mk_is_Some, mapM_is_Some in Hb.
  rewrite Forall_forall in Hb. specialize (Hb x).
  destruct Hb as [rows' Hrows'].
  - apply list_elem_of_In, filter_In. split; [by apply list_elem_of_In|].
    rewrite bool_decide_eq_true_2 by done. cbn.
    destruct (trim (text x)); [done|]. done.
  - cbn in Hrows'. congruence.
Qed.

Lemma concat_length_sum {A} (blocks : list (list A)) :
  length (concat blocks) = sum_list_with length blocks.
Proof.
  induction blocks as [|b blocks IH]; [done|].
  cbn. rewrite length_app, IH. done.
Qed.

(** X19: when Append goes through, it adds one row for each retained line
    of the text of each done job. *)
Theorem append_adds_one_row_per_line st :
  is_Some (parsedBlocks st) ->
  length (rows (handleAppend st))
  = length (rows st)
    + sum_list_with (fun x => length (retained_lines false (text x)))
        (List.filter (fun x => bool_decide (status x = Done)) (records st)).
Proof.
  intros [blocks Hb]. unfold handleAppend. rewrite Hb. cbn.
  rewrite length_app, concat_length_sum. f_equal.
  unfold parsedBlocks in Hb. revert blocks Hb.
  induction (records st) as [|x xs IH]; intros blocks Hb.
  { by injection Hb as <-. }
  cbn [List.filter] in *.
  destruct (bool_decide (status x = Done)); cbn [andb] in *; [|by apply IH].
  destruct (Nat.ltb_spec 0 (length (trim (text x)))) as [Hpos|Hzero].
  - cbn in Hb.
    destruct (parseTextToRows (text x) _) as [rows1|] eqn:Hrows1; [|done].
    cbn in Hb. destruct (mapM _ _) as [blocks'|] eqn:Hb'; [|done].
    injection Hb as <-. cbn. rewrite (IH blocks') by done. f_equal.
    rewrite parseTextToRows_unfold in Hrows1.
    symmetry. by eapply length_mapM.
  - cbn. rewrite (IH blocks Hb).
    assert (trim (text x) = []) as Ht by (destruct (trim (text x)); [done|simpl in Hzero; lia]).
    by rewrite (retained_lines_spaces false _ (trim_nil_spaces _ Ht)).
Qed.

Lemma preview_prefix_of_blocks st preview blocks :
  samplePreview st = Some preview ->
  parsedBlocks st = Some blocks ->
  length preview <= 10 /\ preview `prefix_of` concat blocks.
Proof.
  unfold samplePreview, parsedBlocks. revert blocks.
  induction (records st) as [|x xs IH]; intros blocks Hp Hb.
  { cbn in Hp. injection Hp as <-. split; [simpl; lia|apply prefix_nil]. }
  cbn [List.find List.filter] in *.
  destruct (bool_decide (status x = Done)); cbn [andb] in *; [|by apply IH].
  change (default (js "") (text <$> Some x)) with (text x) in Hp.
  destruct (Nat.ltb_spec 0 (length (trim (text x)))) as [Hpos|Hzero].
  - rewrite bool_decide_eq_false_2 in Hp
      by (intros Heq; rewrite Heq in Hpos; cbn in Hpos; lia).
    cbn in Hb.
    destruct (parseTextToRows (text x) _) as [rows1|] eqn:Hrows1; [|done].
    cbn in Hp, Hb. injection Hp as <-.
    destruct (mapM _ _) as [blocks'|]; [|done]. injection Hb as <-.
    split; [rewrite length_take; lia|].
    cbn. etrans; [apply prefix_take|]. by apply prefix_app_r.
  - assert (trim (text x) = []) as Ht
      by (destruct (trim (text x)); [done|simpl in Hzero; lia]).
    assert (preview = []) as ->.
    { case_bool_decide; [by injection Hp as <-|].
      rewrite (blank_text_no_rows _ _ Ht) in Hp. by injection Hp as <-. }
    split; [simpl; lia|apply prefix_nil].
Qed.

Lemma samplePreview_length st preview :
  samplePreview st = Some preview -> length preview <= 10.
Proof.
  unfold samplePreview. case_bool_decide.
  { intros [= <-]. simpl. lia. }
  destruct (parseTextToRows _ _) as [rows1|]; [|done].
  intros [= <-]. rewrite length_take. lia.
Qed.

(** X20: the preview never holds more than ten rows. When the parse of
    every done job returns, so that Append goes through, the rows of the
    preview are the first of the rows that Append adds; when one of those
    parses throws, Append adds nothing, whatever the preview shows. *)
Theorem preview_shows_the_first_rows_of_append st preview :
  samplePreview st = Some preview ->
  length preview <= 10
  /\ match parsedBlocks st with
     | Some blocks =>
         rows (handleAppend st) = rows st ++ concat blocks
         /\ preview `prefix_of` concat blocks
     | None => rows (handleAppend st) = rows st
     end.
Proof.
  intros Hp. split; [by eapply samplePreview_length|].
  unfold handleAppend.
  destruct (parsedBlocks st) as [blocks|] eqn:Hb; [|done].
  split; [done|]. by eapply preview_prefix_of_blocks.
Qed.

End Appending.

(** ** The list of jobs along any run *)

Section JobList.
Context {E : RegExpEngine}.

Lemma records_alter (upd : ExtractResult -> ExtractResult)
    (f : ExtractResult -> jsstring) l0 (h : list ExtractResult) (ex : list nat) :
  (forall r, f (upd r) = f r) ->
  f <$> omap (fun l => alter upd l0 h !! l) ex = f <$> omap (fun l => h !! l) ex.
Proof.
  intros Hf. induction ex as [|l ex IH]; [done|]. cbn [omap list_omap].
  rewrite list_lookup_alter. case_decide as Hl.
  - subst l0. destruct (h !! l) as [r|]; cbn; [|done]. by rewrite Hf, IH.
  - destruct (h !! l) as [r|]; cbn; by rewrite ?IH.
Qed.

Lemma records_update_at_names i upd st :
  (forall r, fileName (upd r) = fileName r) ->
  fileName <$> records (update_at i upd st) = fileName <$> records st.
Proof.
  intros Hupd. unfold records.
  rewrite extracts_update_at, heap_update_at.
  destruct (extracts st !! i) as [l0|]; [|done].
  by apply records_alter.
Qed.

Lemma step_task_names ev t st st' :
  task_of ev = Some t -> step ev st = Some st' ->
  fileName <$> records st' = fileName <$> records st.
Proof.
  intros Hev Hstep.
  destruct ev as [fs|t0 m|t0 d|t0 d| | | |v|d|v]; try done;
    cbn in Hstep; destruct (running _ st) as [tk|]; try done;
    injection Hstep as <-.
  - destruct (logger_cases (localIndex tk) m st) as [->|[p ->]]; [done|].
    by apply records_update_at_names.
  - by apply (records_update_at_names _ (set_done _)).
  - by apply (records_update_at_names _ (set_error _)).
Qed.

Lemma records_valid (h : list ExtractResult) a n :
  a + n <= length h -> omap (fun l => h !! l) (seq a n) = take n (drop a h).
Proof.
  revert a. induction n as [|n IH]; intros a Han; [done|].
  cbn [seq omap list_omap].
  destruct (h !! a) as [r|] eqn:Hr.
  - cbn. rewrite IH by lia. rewrite (drop_S _ _ _ Hr). done.
  - apply lookup_ge_None in Hr. lia.
Qed.

Lemma extracts_window_step ev st st' :
  extracts_window st -> step ev st = Some st' -> extracts_window st'.
Proof.
  intros [Hle Hwin] Hstep. unfold extracts_window.
  destruct (task_of ev) as [t|] eqn:Hev.
  - rewrite (step_task_extracts _ _ _ _ Hev Hstep).
    destruct (step_task_length _ _ _ _ Hev Hstep) as [_ ->]. done.
  - destruct (step_user _ _ _ Hev Hstep)
      as [(files & -> & ->)|(Hh & _ & [Hex | ->])].
    + rewrite handleFiles_extracts, handleFiles_heap.
      rewrite !length_app, length_seq, length_fmap.
      split; [lia|]. rewrite Hwin at 1.
      replace (length (heap st) + length (default [] files)
               - (length (extracts st) + length (default [] files)))
        with (length (heap st) - length (extracts st)) by lia.
      rewrite seq_app. do 2 f_equal. lia.
    + by rewrite Hh, Hex.
    + injection Hstep as <-. cbn. split; [lia|done].
Qed.

Lemma extracts_window_run evs : forall st st',
  extracts_window st -> run evs st = Some st' -> extracts_window st'.
Proof.
  induction evs as [|ev evs IH]; intros st st' Hwin Hrun.
  { by injection Hrun as <-. }
  cbn in Hrun. destruct (step ev st) as [st1|] eqn:Hstep; [|done].
  cbn in Hrun. apply (IH st1); [|done]. by eapply extracts_window_step.
Qed.

Lemma extracts_window_initial : extracts_window initial_state.
Proof. split; [done|reflexivity]. Qed.

Lemma records_handleFiles n files st :
  Forall (fun l => l < length (heap st)) (extracts st) ->
  records (handleFiles n files st)
  = records st
    ++ ((fun f => {| fileName := name f; text := js ""; progress := 0%Q;
                     status := Recognizing; error := None |})
          <$> default [] files).
Proof.
  intros Hvalid. unfold records.
  rewrite handleFiles_extracts, handleFiles_heap.
  set (new := _ <$> default [] files).
  rewrite omap_app. f_equal.
  - induction Hvalid as [|l ex Hl _ IH]; [done|]. cbn [omap list_omap].
    rewrite lookup_app_l by done. by rewrite IH.
  - rewrite records_valid by (rewrite length_app; unfold new; rewrite length_fmap; lia).
    rewrite drop_app_length. apply take_ge. unfold new. by rewrite length_fmap.
Qed.

Lemma window_valid st :
  extracts_window st -> Forall (fun l => l < length (heap st)) (extracts st).
Proof.
  intros [Hle Hwin]. apply Forall_forall. intros l Hl.
  rewrite Hwin in Hl. apply list_elem_of_In, in_seq in Hl. lia.
Qed.

(** X21: a submission adds one job per file at the end of the list, in the
    order of the files, each [recognizing] with progress 0 and no text; the
    jobs already listed stay as and where they are. *)
Theorem submission_appends_one_job_per_file evs st files st' :
  run evs initial_state = Some st ->
  step (FilesGiven files) st = Some st' ->
  records st'
  = records st
    ++ ((fun f => {| fileName := name f; text := js ""; progress := 0%Q;
                     status := Recognizing; error := None |})
          <$> default [] files).
Proof.
  intros Hrun [= <-]. apply records_handleFiles, window_valid.
  by apply (extracts_window_run evs initial_state st extracts_window_initial).
Qed.

Lemma shown_run evs : forall st st',
  extracts_window st -> run evs st = Some st' ->
  fileName <$> records st' = shown evs (fileName <$> records st).
Proof.
  induction evs as [|ev evs IH]; intros st st' Hwin Hrun.
  { by injection Hrun as <-. }
  cbn in Hrun. destruct (step ev st) as [st1|] eqn:Hstep; [|done].
  cbn in Hrun.
  pose proof (extracts_window_step _ _ _ Hwin Hstep) as Hwin1.
  rewrite (IH st1 st' Hwin1 Hrun). clear IH Hrun.
  destruct (task_of ev) as [t|] eqn:Hev.
  - rewrite (step_task_names _ _ _ _ Hev Hstep). by destruct ev.
  - destruct ev as [fs|t0 m|t0 d|t0 d| | | |v|d|v]; try done;
      injection Hstep as <-; cbn [shown]; try done.
    + rewrite (records_handleFiles _ _ _ (window_valid _ Hwin)).
      rewrite fmap_app, <-list_fmap_compose. done.
    + unfold records. by destruct (handleAppend_frame st) as (-> & _ & ->).
Qed.

(** X22: along every run, clears included, the jobs listed are the files
    submitted since the last clear, in the order of submission. *)
Theorem listed_jobs_are_the_files_since_the_last_clear evs st :
  run evs initial_state = Some st ->
  fileName <$> records st = shown evs [].
Proof.
  intros Hrun.
  by apply (shown_run evs initial_state st extracts_window_initial).
Qed.

(** X23: along every run, no record is listed twice and every entry of
    the list has its record. *)
Theorem listed_records_are_distinct evs st :
  run evs initial_state = Some st ->
  NoDup (extracts st) /\ length (records st) = length (extracts st).
Proof.
  intros Hrun.
  pose proof (extracts_window_run evs _ _ extracts_window_initial Hrun) as Hwin.
  destruct Hwin as [Hle Hwin]. split.
  - rewrite Hwin. apply NoDup_seq.
  - unfold records. rewrite Hwin at 1. rewrite records_valid by lia.
    rewrite length_take, length_drop. lia.
Qed.

End JobList.

(** ** The life of a job when nothing is cleared *)

Section JobLife.
Context {E : RegExpEngine}.

Lemma alter_as_insert {A} (f : A -> A) (l : list A) i x :
  l !! i = Some x -> alter f i l = <[i:=f x]> l.
Proof.
  revert i. induction l as [|y l IH]; intros [|i] Hi; try done.
  - by injection Hi as ->.
  - cbn. f_equal. by apply IH.
Qed.

Lemma full_list_step ev st st' :
  is_clear ev = false -> full_list st -> step ev st = Some st' -> full_list st'.
Proof.
  unfold full_list. intros Hclear Hfull Hstep.
  destruct (task_of ev) as [t|] eqn:Hev.
  - rewrite (step_task_extracts _ _ _ _ Hev Hstep).
    by destruct (step_task_length _ _ _ _ Hev Hstep) as [_ ->].
  - destruct (step_user _ _ _ Hev Hstep)
      as [(files & -> & ->)|(Hh & _ & [Hex | ->])]; [|congruence|done].
    rewrite handleFiles_extracts, handleFiles_heap.
    rewrite !length_app, length_seq, length_fmap. lia.
Qed.

Lemma running_fresh_step ev st st' :
  is_clear ev = false ->
  own_index st -> jobs_allocated st -> running_fresh st ->
  step ev st = Some st' -> running_fresh st'.
Proof.
  intros Hclear Hown [Hlen Hjob] Hrec Hstep t tk Hrun.
  apply running_Some in Hrun as [Ht Hs].
  destruct (task_of ev) as [t0|] eqn:Hev.
  - destruct (step_task_tasks _ _ _ _ _ _ Hev Hstep Ht)
      as (tk0 & Ht0 & _ & -> & Hs0).
    destruct (Hs0 Hs) as [Hs0' Hlog].
    destruct (Hrec t tk0) as (r & Hr & Hst & Htext & Herr);
      [by apply running_Some|].
    destruct (step_task _ _ _ _ Hev Hstep) as (tk1 & Hrun1 & Hcase).
    apply running_Some in Hrun1 as [Ht1 _].
    destruct (decide (t = t0)) as [->|Hne].
    + destruct (Hlog eq_refl) as [m ->].
      destruct Hcase as [(m' & [= <-] & ->)|(upd & Hno & _)];
        [|by destruct (Hno m)].
      assert (tk1 = tk0) as -> by congruence.
      destruct (logger_cases (localIndex tk0) m st) as [->|[p ->]]; [by eauto|].
      rewrite (update_at_target _ _ _ _ (Hown _ _ Ht0)), Hr.
      by eexists.
    + exists r. split; [|done].
      destruct (step_task_heap _ _ _ _ Hev Hstep) as (tk2 & Hrun2 & Hframe & _).
      apply running_Some in Hrun2 as [Ht2 _].
      rewrite Hframe; [done|].
      rewrite (Hown _ _ Ht2). rewrite (Hjob _ _ Ht2), (Hjob _ _ Ht0). congruence.
  - destruct (step_user _ _ _ Hev Hstep) as [(files & -> & ->)|(Hheap & Htasks & _)].
    + rewrite handleFiles_tasks in Ht. rewrite handleFiles_heap.
      apply lookup_app_Some in Ht as [Ht|[Hge Ht]].
      { destruct (Hrec t tk) as (r & Hr & Hst); [by apply running_Some|].
        exists r. split; [|done]. by apply lookup_app_l_Some. }
      rewrite list_lookup_imap in Ht.
      destruct (default [] files !! _) as [f|] eqn:Hf; [|done].
      injection Ht as <-. cbn. pose proof (lookup_lt_Some _ _ _ Hf).
      rewrite lookup_app_r by lia.
      replace (length (heap st) + _ - length (heap st))
        with (t - length (tasks st)) by lia.
      rewrite list_lookup_fmap, Hf. by eexists.
    + rewrite Hheap. apply (Hrec t). apply running_Some. by rewrite <-Htasks.
Qed.

(** The state reached by a run that clears nothing: every record is
    listed at its own address, and the records of the running tasks are
    untouched but for their progress. *)
Lemma clear_free_run evs : forall st st',
  forallb (fun ev => negb (is_clear ev)) evs = true ->
  own_index st /\ jobs_allocated st /\ running_fresh st
    /\ full_list st /\ extracts_window st ->
  run evs st = Some st' ->
  own_index st' /\ jobs_allocated st' /\ running_fresh st'
    /\ full_list st' /\ extracts_window st'.
Proof.
  induction evs as [|ev evs IH]; intros st st' Hevs Hinv Hrun.
  { by injection Hrun as <-. }
  cbn in Hevs, Hrun. apply andb_true_iff in Hevs as [Hev Hevs].
  apply negb_true_iff in Hev.
  destruct (step ev st) as [st1|] eqn:Hstep; [|done]. cbn in Hrun.
  destruct Hinv as (Hown & Hjobs & Hrec & Hfull & Hwin).
  apply (IH st1 st' Hevs); [|done]. split; [|split; [|split; [|split]]].
  - by eapply own_index_step.
  - by eapply jobs_allocated_step.
  - by eapply running_fresh_step.
  - by eapply full_list_step.
  - by eapply extracts_window_step.
Qed.

Lemma clear_free_initial :
  own_index initial_state /\ jobs_allocated initial_state
  /\ running_fresh initial_state /\ full_list initial_state
  /\ extracts_window initial_state.
Proof.
  split; [done|]. split; [done|]. split; [|split; [done|]].
  - intros t tk Hrun. apply running_Some in Hrun as [Ht _]. done.
  - apply extracts_window_initial.
Qed.

Lemma full_records st :
  full_list st -> extracts_window st -> records st = heap st.
Proof.
  unfold full_list. intros Hfull [_ Hwin]. unfold records.
  rewrite Hwin, Hfull, Nat.sub_diag, records_valid by lia.
  rewrite drop_0. by apply take_ge.
Qed.

(** What the notification of a running task does to the list when nothing
    was cleared: the updater runs on the record at the task's own
    position. *)
Lemma own_record_updated evs st t tk upd :
  forallb (fun ev => negb (is_clear ev)) evs = true ->
  run evs initial_state = Some st ->
  running t st = Some tk ->
  exists r, records st !! t = Some r
    /\ status r = Recognizing /\ text r = [] /\ error r = None
    /\ records (update_at (localIndex tk) upd st) = <[t:=upd r]> (records st).
Proof.
  intros Hevs Hrun Htk.
  destruct (clear_free_run _ _ _ Hevs clear_free_initial Hrun)
    as (Hown & [Hlen Hjob] & Hrec & Hfull & Hwin).
  destruct (Hrec _ _ Htk) as (r & Hr & Hst & Htext & Herr).
  apply running_Some in Htk as [Htk _].
  pose proof (Hown _ _ Htk) as Hidx. rewrite (Hjob _ _ Htk) in Hr, Hidx.
  exists r. rewrite (full_records st Hfull Hwin).
  split; [done|]. split; [done|]. split; [done|]. split; [done|].
  rewrite full_records.
  - rewrite heap_update_at, Hidx. by apply alter_as_insert.
  - unfold full_list. rewrite extracts_update_at, heap_update_at, Hidx.
    by rewrite length_alter.
  - destruct Hwin as [Hle Hwin]. unfold extracts_window.
    rewrite extracts_update_at, heap_update_at, Hidx, length_alter. done.
Qed.

Lemma records_settle t st : records (settle t st) = records st.
Proof. done. Qed.

(** X24: when nothing was cleared, the completion of a task turns its own
    job into [done] with progress 1 and the recognized text (the empty
    string when the engine gives none), and changes no other job. *)
Theorem completion_marks_the_job_done evs st t data_text st' :
  forallb (fun ev => negb (is_clear ev)) evs = true ->
  run evs initial_state = Some st ->
  step (Resolved t data_text) st = Some st' ->
  exists r, records st !! t = Some r
    /\ records st'
       = <[t:={| fileName := fileName r; text := default (js "") data_text;
                 progress := 1%Q; status := Done; error := None |}]>
           (records st).
Proof.
  intros Hevs Hrun Hstep. cbn in Hstep.
  destruct (running t st) as [tk|] eqn:Htk; [|done]. injection Hstep as <-.
  destruct (own_record_updated evs st t tk
              (set_done (default (js "") data_text)) Hevs Hrun Htk)
    as (r & Hr & _ & _ & Herr & Hrecords).
  exists r. split; [done|]. rewrite records_settle. unfold on_resolved.
  rewrite Hrecords. unfold set_done. by rewrite Herr.
Qed.

(** X25: when nothing was cleared, the failure of a task turns its own job
    into [error] with the failure message ("OCR failed" when there is
    none); the job keeps its progress and its empty text. *)
Theorem failure_marks_the_job_in_error evs st t message st' :
  forallb (fun ev => negb (is_clear ev)) evs = true ->
  run evs initial_state = Some st ->
  step (Rejected t message) st = Some st' ->
  exists r, records st !! t = Some r
    /\ records st'
       = <[t:={| fileName := fileName r; text := js "";
                 progress := progress r; status := Error;
                 error := Some (default (js "OCR failed") message) |}]>
           (records st).
Proof.
  intros Hevs Hrun Hstep. cbn in Hstep.
  destruct (running t st) as [tk|] eqn:Htk; [|done]. injection Hstep as <-.
  destruct (own_record_updated evs st t tk
              (set_error (default (js "OCR failed") message)) Hevs Hrun Htk)
    as (r & Hr & _ & Htext & _ & Hrecords).
  exists r. split; [done|]. rewrite records_settle. unfold on_rejected.
  rewrite Hrecords. unfold set_error. by rewrite Htext.
Qed.

(** X26: when nothing was cleared, a logger message of a task sets the
    progress of its own job to the reported value, replacing the earlier
    one, if its status is "recognizing text" and its progress a number;
    any other message changes nothing. *)
Theorem progress_replaces_the_earlier_value evs st t m st' :
  forallb (fun ev => negb (is_clear ev)) evs = true ->
  run evs initial_state = Some st ->
  step (LoggerCalled t m) st = Some st' ->
  match m_progress m with
  | Some p =>
      if bool_decide (m_status m = js "recognizing text")
      then exists r, records st !! t = Some r
             /\ records st'
                = <[t:={| fileName := fileName r; text := js "";
                          progress := p; status := Recognizing;
                          error := None |}]> (records st)
      else st' = st
  | None => st' = st
  end.
Proof.
  intros Hevs Hrun Hstep. cbn in Hstep.
  destruct (running t st) as [tk|] eqn:Htk; [|done]. injection Hstep as <-.
  unfold logger. destruct (m_progress m) as [p|]; [|done].
  case_bool_decide; [|done].
  destruct (own_record_updated evs st t tk (set_progress p) Hevs Hrun Htk)
    as (r & Hr & Hst & Htext & Herr & Hrecords).
  exists r. split; [done|]. rewrite Hrecords. unfold set_progress.
  by rewrite Hst, Htext, Herr.
Qed.

End JobLife.

(** ** After a clear *)

Section AfterClear.
Context {E : RegExpEngine}.

Lemma rows_update_at i upd st : rows (update_at i upd st) = rows st.
Proof. unfold update_at. by destruct (extracts st !! i). Qed.

(** With an empty list, an event that submits nothing leaves the list and
    the table empty and writes to no record. *)
Lemma step_on_empty_list ev st st' :
  is_submission ev = false ->
  extracts st = [] -> rows st = [] ->
  step ev st = Some st' ->
  extracts st' = [] /\ rows st' = [] /\ heap st' = heap st.
Proof.
  intros Hev Hex Hrows Hstep.
  destruct ev as [fs|t0 m|t0 d|t0 d| | | |v|d|v]; try done; cbn in Hstep;
    try (destruct (running _ st) as [tk|]; [|done]);
    injection Hstep as <-; try done.
  - destruct (logger_cases (localIndex tk) m st) as [->|[p ->]]; [done|].
    rewrite extracts_update_at, rows_update_at, heap_update_at, Hex. done.
  - cbn. unfold on_resolved.
    rewrite extracts_update_at, rows_update_at, heap_update_at, Hex. done.
  - cbn. unfold on_rejected.
    rewrite extracts_update_at, rows_update_at, heap_update_at, Hex. done.
  - destruct (handleAppend_frame st) as (-> & _ & ->).
    split; [done|]. split; [|done].
    unfold handleAppend, parsedBlocks, records. rewrite Hex. cbn. by rewrite Hrows.
Qed.

(** X27: after [clearAll], as long as no file is submitted, whatever the
    tasks still running report is dropped: the list and the table stay
    empty and no record is written to. *)
Theorem after_clear_reports_are_dropped evs st st' :
  forallb (fun ev => negb (is_submission ev)) evs = true ->
  run evs (clearAll st) = Some st' ->
  records st' = [] /\ rows st' = [] /\ heap st' = heap st.
Proof.
  intros Hevs.
  assert (extracts (clearAll st) = [] /\ rows (clearAll st) = []
          /\ heap (clearAll st) = heap st) as Hinit by done.
  revert Hinit. generalize (clearAll st) as st0.
  induction evs as [|ev evs IH]; intros st0 (Hex & Hrows & Hheap) Hrun.
  { injection Hrun as <-. unfold records. by rewrite Hex. }
  cbn in Hevs, Hrun. apply andb_true_iff in Hevs as [Hev Hevs].
  apply negb_true_iff in Hev.
  destruct (step ev st0) as [st1|] eqn:Hstep; [|done]. cbn in Hrun.
  destruct (step_on_empty_list _ _ _ Hev Hex Hrows Hstep) as (Hex1 & Hrows1 & Hheap1).
  apply (IH Hevs st1); [|done]. split; [done|]. split; [done|]. congruence.
Qed.

End AfterClear.

(** ** Further properties at concrete inputs *)

Section MoreExamples.
#[local] Existing Instance ReferenceEngine.

Lemma parse_gives_one_row_per_line_witness :
  let text := js "a, b" ++ [LF; LF] ++ js " c " ++ [CR; LF] in
  exists lines rows,
    lines_of text = Some lines
    /\ parseTextToRows text (options comma None) = Some rows
    /\ length rows = length lines /\ Forall (fun row => row <> []) rows.
Proof.
  intros text. eexists _, _. split; [vm_compute; reflexivity|].
  split; [vm_compute; reflexivity|].
  apply (parse_gives_one_row_per_line text (options comma None));
    vm_compute; reflexivity.
Defined.

Lemma parsed_cells_are_trimmed_witness :
  exists rows,
    parseTextToRows (js "  a  |  b c  |" ++ [LF] ++ js "d") (options pipe None)
    = Some rows
    /\ Forall (Forall trimmed) rows.
Proof.
  eexists. split; [vm_compute; reflexivity|].
  apply (parsed_cells_are_trimmed
           (js "  a  |  b c  |" ++ [LF] ++ js "d") (options pipe None)).
  vm_compute. reflexivity.
Defined.

Lemma parse_returns_unless_custom_witness :
  is_Some (parseTextToRows (js "a  b  c") (options spaces (Some (js "(")))).
Proof. apply parse_returns_unless_custom. discriminate. Defined.

Lemma auto_follows_its_priorities_witness :
  let text := js "a, b" ++ [TAB] ++ js "c" in
  parseTextToRows text (options auto None)
  = parseTextToRows text (options comma None).
Proof.
  apply (auto_follows_its_priorities
           (js "a, b" ++ [TAB] ++ js "c") None None
           [js "a, b" ++ [TAB] ++ js "c"]).
  - vm_compute. reflexivity.
  - apply (bool_decide_unpack _). vm_compute. exact I.
Defined.

Lemma line_without_delimiter_is_one_cell_witness :
  let text := js "a, b" ++ [LF] ++ js "no delimiter here" in
  exists rows,
    parseTextToRows text (options comma None) = Some rows
    /\ rows !! 1 = Some [js "no delimiter here"].
Proof.
  intros text. eexists. split; [vm_compute; reflexivity|].
  apply (line_without_delimiter_is_one_cell text comma None COMMA
           [js "a, b"; js "no delimiter here"]).
  - reflexivity.
  - vm_compute. reflexivity.
  - vm_compute. reflexivity.
  - reflexivity.
  - apply (bool_decide_unpack _). vm_compute. exact I.
Defined.

Lemma parse_of_joined_texts_witness :
  parseTextToRows (js "a;b" ++ LF :: js "c;d") (options custom (Some (js ";")))
  = Some ([[js "a"; js "b"]] ++ [[js "c"; js "d"]]).
Proof.
  unfold options. rewrite parse_of_joined_texts by discriminate.
  vm_compute. reflexivity.
Defined.

Lemma clean_label (label : jsstring) :
  bool_decide (label <> [])
  && negb (is_space (default 0%N (head label)))
  && negb (is_space (default 0%N (last label)))
  && bool_decide (COMMA ∉ label) = true ->
  label <> [] /\ trimmed label /\ COMMA ∉ label.
Proof.
  intros H. apply andb_true_iff in H as [H Hc].
  apply andb_true_iff in H as [H Hl]. apply andb_true_iff in H as [Hne Hh].
  apply bool_decide_eq_true in Hne, Hc. apply negb_true_iff in Hh, Hl.
  split; [done|]. split; [|done].
  split; intros c Hc'; [by rewrite Hc' in Hh|by rewrite Hc' in Hl].
Qed.

Lemma columns_of_typed_labels_witness :
  columns (setColumnsInput (js "Date, Name, Amount") initial_state)
  = [js "Date"; js "Name"; js "Amount"].
Proof.
  apply (columns_of_typed_labels initial_state
           [js "Date"; js "Name"; js "Amount"]).
  repeat constructor; apply clean_label; vm_compute; reflexivity.
Defined.

Lemma export_header_without_labels_witness :
  exists st,
    setColumnsInput (js " , ") <$>
      (handleAppend <$> run one_failure_one_success initial_state) = Some st
    /\ columns st = []
    /\ export_header st = [js "col_1"; js "col_2"]
    /\ NoDup (export_header st).
Proof.
  eexists. split; [vm_compute; reflexivity|].
  split; [vm_compute; reflexivity|].
  match goal with
  | |- export_header ?st = _ /\ _ =>
      destruct (export_header_without_labels st) as (H1 & H2 & _)
  end.
  - vm_compute. reflexivity.
  - split; [rewrite H1; vm_compute; reflexivity|exact H2].
Defined.

Lemma export_header_with_labels_witness :
  exists st,
    setColumnsInput (js "Item") <$>
      (handleAppend <$> run one_failure_one_success initial_state) = Some st
    /\ export_header st = [js "Item"]
    /\ table_head st = [js "Item"; js "col_2"].
Proof.
  eexists. split; [vm_compute; reflexivity|].
  match goal with
  | |- export_header ?st = _ /\ _ =>
      destruct (export_header_with_labels st [js "a"; js "b"]) as (H1 & _)
  end.
  - vm_compute. discriminate.
  - apply (bool_decide_unpack _). vm_compute. exact I.
  - vm_compute. lia.
  - split; [rewrite H1|]; vm_compute; reflexivity.
Defined.

Lemma appending_twice_duplicates_the_rows_witness :
  exists st,
    run one_failure_one_success initial_state = Some st
    /\ rows (handleAppend (handleAppend st))
       = [[js "a"; js "b"]; [js "c"; js "d"]; [js "a"; js "b"]; [js "c"; js "d"]].
Proof.
  eexists. split; [vm_compute; reflexivity|].
  match goal with
  | |- rows (handleAppend (handleAppend ?st)) = _ =>
      rewrite (appending_twice_duplicates_the_rows st
                 [[[js "a"; js "b"]; [js "c"; js "d"]]])
  end; vm_compute; reflexivity.
Defined.

Lemma append_skips_unfinished_and_blank_jobs_witness :
  exists st,
    run [FilesGiven (Some [file "a.png"; file "b.png"; file "c.png"]);
         Rejected 0 None; Resolved 1 (Some (js "  "))] initial_state = Some st
    /\ (status <$> records st) = [Error; Done; Recognizing]
    /\ rows (handleAppend st) = rows st.
Proof.
  eexists. split; [vm_compute; reflexivity|].
  split; [vm_compute; reflexivity|].
  apply append_skips_unfinished_and_blank_jobs.
  vm_compute. repeat constructor; by (left + right).
Defined.

Lemma append_adds_nothing_when_a_parse_throws_witness :
  exists st,
    setCustomPattern (js "(;)|b") <$> (setDelimiter custom <$>
      run [FilesGiven (Some [file "a.png"; file "b.png"]);
           Resolved 0 (Some (js "x y")); Resolved 1 (Some (js "a;b ; c"))]
          initial_state) = Some st
    /\ rows (handleAppend st) = rows st.
Proof.
  eexists. split; [vm_compute; reflexivity|].
  eapply (append_adds_nothing_when_a_parse_throws _
            {| fileName := js "b.png"; text := js "a;b ; c"; progress := 1%Q;
               status := Done; error := None |}).
  - apply list_elem_of_lookup. exists 1. vm_compute. reflexivity.
  - reflexivity.
  - vm_compute. discriminate.
  - vm_compute. reflexivity.
Defined.

Lemma append_adds_one_row_per_line_witness :
  exists st,
    run one_failure_one_success initial_state = Some st
    /\ length (rows (handleAppend st)) = 0 + 2.
Proof.
  eexists. split; [vm_compute; reflexivity|].
  rewrite append_adds_one_row_per_line.
  - vm_compute. reflexivity.
  - vm_compute. by eexists.
Defined.

Lemma preview_shows_the_first_rows_of_append_witness :
  exists st preview,
    run one_failure_one_success initial_state = Some st
    /\ samplePreview st = Some preview
    /\ length preview <= 10
    /\ match parsedBlocks st with
       | Some blocks =>
           rows (handleAppend st) = rows st ++ concat blocks
           /\ preview `prefix_of` concat blocks
       | None => rows (handleAppend st) = rows st
       end.
Proof.
  eexists _, _. split; [vm_compute; reflexivity|].
  split; [vm_compute; reflexivity|].
  apply (preview_shows_the_first_rows_of_append
           (default initial_state (run one_failure_one_success initial_state))).
  vm_compute. reflexivity.
Defined.

(** The preview can show rows that Append will not add: with the custom
    pattern [(;)|b] the first done text parses and the second throws. *)
Example preview_without_append :
  exists st,
    setCustomPattern (js "(;)|b") <$> (setDelimiter custom <$>
      run [FilesGiven (Some [file "a.png"; file "b.png"]);
           Resolved 0 (Some (js "x y")); Resolved 1 (Some (js "a;b ; c"))]
          initial_state) = Some st
    /\ samplePreview st = Some [[js "x y"]]
    /\ parsedBlocks st = None
    /\ rows (handleAppend st) = rows st.
Proof. eexists. repeat split; vm_compute; reflexivity. Qed.

Lemma submission_appends_one_job_per_file_witness :
  exists st st',
    run one_failure_one_success initial_state = Some st
    /\ step (FilesGiven (Some [file "c.png"])) st = Some st'
    /\ records st'
       = records st
         ++ [{| fileName := js "c.png"; text := js ""; progress := 0%Q;
                status := Recognizing; error := None |}].
Proof.
  eexists _, _. split; [vm_compute; reflexivity|].
  split; [vm_compute; reflexivity|].
  apply (submission_appends_one_job_per_file one_failure_one_success _
           (Some [file "c.png"])); vm_compute; reflexivity.
Defined.

Lemma listed_jobs_are_the_files_since_the_last_clear_witness :
  exists st,
    run (clear_then_resubmit ++ [FilesGiven (Some [file "c.png"])])
        initial_state = Some st
    /\ fileName <$> records st = [js "b.png"; js "c.png"].
Proof.
  eexists. split; [vm_compute; reflexivity|].
  rewrite (listed_jobs_are_the_files_since_the_last_clear
             (clear_then_resubmit ++ [FilesGiven (Some [file "c.png"])]));
    vm_compute; reflexivity.
Defined.

Lemma listed_records_are_distinct_witness :
  exists st,
    run (clear_then_resubmit ++ [FilesGiven (Some [file "c.png"])])
        initial_state = Some st
    /\ NoDup (extracts st) /\ length (records st) = length (extracts st).
Proof.
  eexists. split; [vm_compute; reflexivity|].
  apply (listed_records_are_distinct
           (clear_then_resubmit ++ [FilesGiven (Some [file "c.png"])])).
  vm_compute. reflexivity.
Defined.

Lemma completion_marks_the_job_done_witness :
  exists st st' r,
    run overlapping_batches initial_state = Some st
    /\ step (Resolved 2 None) st = Some st'
    /\ records st !! 2 = Some r
    /\ records st'
       = <[2:={| fileName := fileName r; text := js ""; progress := 1%Q;
                 status := Done; error := None |}]> (records st).
Proof.
  destruct (completion_marks_the_job_done overlapping_batches
              (default initial_state (run overlapping_batches initial_state))
              2 None
              (default initial_state
                 (step (Resolved 2 None)
                    (default initial_state (run overlapping_batches initial_state)))))
    as (r & Hr & Hrecords); [vm_compute; reflexivity..|].
  eexists _, _, r. split; [vm_compute; reflexivity|].
  split; [vm_compute; reflexivity|]. split; [exact Hr|exact Hrecords].
Defined.

Lemma failure_marks_the_job_in_error_witness :
  exists st st' r,
    run overlapping_batches initial_state = Some st
    /\ step (Rejected 0 None) st = Some st'
    /\ records st !! 0 = Some r
    /\ records st'
       = <[0:={| fileName := fileName r; text := js ""; progress := progress r;
                 status := Error; error := Some (js "OCR failed") |}]>
           (records st).
Proof.
  destruct (failure_marks_the_job_in_error overlapping_batches
              (default initial_state (run overlapping_batches initial_state))
              0 None
              (default initial_state
                 (step (Rejected 0 None)
                    (default initial_state (run overlapping_batches initial_state)))))
    as (r & Hr & Hrecords); [vm_compute; reflexivity..|].
  eexists _, _, r. split; [vm_compute; reflexivity|].
  split; [vm_compute; reflexivity|]. split; [exact Hr|exact Hrecords].
Defined.

Lemma progress_replaces_the_earlier_value_witness :
  exists st st' r,
    run overlapping_batches initial_state = Some st
    /\ step (LoggerCalled 0 (recognizing_text (9 # 10))) st = Some st'
    /\ records st !! 0 = Some r /\ progress r = (4 # 10)%Q
    /\ records st'
       = <[0:={| fileName := fileName r; text := js ""; progress := (9 # 10)%Q;
                 status := Recognizing; error := None |}]> (records st).
Proof.
  pose proof (progress_replaces_the_earlier_value overlapping_batches
              (default initial_state (run overlapping_batches initial_state))
              0 (recognizing_text (9 # 10))
              (default initial_state
                 (step (LoggerCalled 0 (recognizing_text (9 # 10)))
                    (default initial_state (run overlapping_batches initial_state))))) as H.
  destruct H as (r & Hr & Hrecords); [vm_compute; reflexivity..|].
  eexists _, _, r. split; [vm_compute; reflexivity|].
  split; [vm_compute; reflexivity|]. split; [exact Hr|].
  split; [|exact Hrecords].
  vm_compute in Hr. injection Hr as <-. reflexivity.
Defined.

Lemma after_clear_reports_are_dropped_witness :
  exists st st',
    run overlapping_batches initial_state = Some st
    /\ run [Resolved 0 (Some (js "late")); LoggerCalled 2 (recognizing_text (1 # 2));
            AppendClicked; Rejected 2 None] (clearAll st) = Some st'
    /\ records st' = [] /\ rows st' = [] /\ heap st' = heap st.
Proof.
  eexists _, _. split; [vm_compute; reflexivity|].
  split; [vm_compute; reflexivity|].
  apply (after_clear_reports_are_dropped
           [Resolved 0 (Some (js "late")); LoggerCalled 2 (recognizing_text (1 # 2));
            AppendClicked; Rejected 2 None]
           (default initial_state (run overlapping_batches initial_state)));
    vm_compute; reflexivity.
Defined.

End MoreExamples.
